(** * BlackRoad distributed config: the MVCC store of [src/distributed_config.py]

    A shallow embedding of [DistributedConfig]: the three SQLite tables
    ([kv_entries], [leases], [revisions]) are lists of rows in insertion
    order, the in-memory fields ([revision], [compacted_rev], [watches]) sit
    next to them in the [Store] record, and every method is a function from a
    store to the store it leaves behind together with what the call returned
    or raised.

    Conventions of the embedding:
    - Python [int] is [Z]; Python [str] is [string] (one [ascii] per
      character); [Optional] is [option].
    - [datetime.utcnow()] is a parameter [now] of the call: an instant, in
      whole seconds since [datetime.min] (0001-01-01T00:00:00), so that
      [now + timedelta(seconds=ttl_s)] is [now + ttl_s]; a call that reads
      the clock several times reads the same instant.  A [datetime] ends at
      [datetime.max]: an addition that leaves the range raises
      [OverflowError].
    - [uuid.uuid4()] is a parameter of the call (the fresh identifier).
    - A Python [int] bound to a [?] parameter has to fit SQLite's signed
      64-bit INTEGER; the binding raises [OverflowError] otherwise.  The
      calls whose integer argument comes from the caller are [compact],
      [grant_lease], [get] and [list_revision_history]: [compact] carries
      the exception in its outcome, the ttl of [grant_lease] fits whenever
      its deadline is a [datetime], and the two reads are modelled for
      arguments that fit ([sqlite_int], [bindable]).
    - A statement that violates a PRIMARY KEY raises
      [sqlite3.IntegrityError]; a statement that names a column its table
      does not have, or that writes while another connection holds an
      uncommitted write, raises [sqlite3.OperationalError].  An exception
      that leaves a [with sqlite3.connect(...) as conn] block rolls the
      tables back to the last commit, while assignments to [self.revision]
      stay.
    - TEXT is compared bytewise (the BINARY collation) by [=], [<], [>=]
      and ORDER BY, and by LIKE as a pattern, up to ASCII case and up to the
      first NUL.  [ORDER BY key] on [kv_entries] is answered from the index
      of the primary key, so rows of one key come by mod_revision; a SELECT
      without ORDER BY gives the rows in the order of the table.
    - Calls are taken one at a time ([put], [get], [delete], [get_prefix],
      [txn], [compact] and [revoke_lease] hold the store lock for their
      whole body): a run of the store is a sequence of calls.
    - [reachable] are the stores of one process started on a fresh data
      directory.  A process started on an existing database begins at
      [__init__] of the store it finds, with the counter back at 0 over the
      rows that are there: such a store is in general not [reachable], and
      what is said of every put, delete or transaction is said of every
      store, with [reachable] only where a statement says so. *)

From Stdlib Require Import ZArith List String Ascii Bool Lia.
From Stdlib Require Import Sorted Permutation.
Import ListNotations.

Local Open Scope string_scope.
Local Open Scope list_scope.
Local Open Scope Z_scope.

(** ** Values and exceptions *)

Definition timestamp := Z.

(** A value read from a SQLite column or bound to a [?] parameter.  [STime]
    and [SJson] are TEXT values too: an ISO-8601 instant and the JSON object
    [{"version": v}]. *)
Inductive sqlval : Type :=
| SNull
| SInt (z : Z)
| SText (s : string)
| STime (t : Z)
| SJson (version : Z).

Inductive exn : Type :=
| IntegrityError (msg : string)
| OperationalError (msg : string)
| OverflowError.

(** What a Python call did: returned a value or raised. *)
Inductive outcome (A : Type) : Type :=
| Returned (a : A)
| Raised (e : exn).

Arguments Returned {A} a.
Arguments Raised {A} e.

(** The integers SQLite stores and binds: signed, 64 bits. *)
Definition fits_int64 (z : Z) : bool :=
  (- 2 ^ 63 <=? z) && (z <? 2 ^ 63).

Definition sqlite_int (z : Z) : Prop := - 2 ^ 63 <= z < 2 ^ 63.

(** The optional [revision] of [get], as a parameter SQLite can bind. *)
Definition bindable (revision : option Z) : Prop :=
  match revision with
  | Some R => sqlite_int R
  | None => True
  end.

(** The range of [datetime], in whole seconds since [datetime.min]:
    [datetime.max] is 9999-12-31T23:59:59.999999, in the last second of day
    3652059 of the proleptic Gregorian calendar. *)
Definition datetime_max : Z := 3652059 * 86400 - 1.

Definition in_datetime_range (t : Z) : bool :=
  (0 <=? t) && (t <=? datetime_max).

(** [timedelta(seconds=s)] holds at most 999999999 days, either way. *)
Definition timedelta_ok (s : Z) : bool :=
  (- 999999999 <=? s / 86400) && (s / 86400 <=? 999999999).

(** [now + timedelta(seconds=ttl_s)] is a [datetime]: neither the
    [timedelta] nor the sum raises OverflowError. *)
Definition deadline_ok (now ttl_s : Z) : bool :=
  timedelta_ok ttl_s && in_datetime_range (now + ttl_s).

(** Python truthiness of an [Optional[str]]: [None] and [""] are falsy. *)
Definition truthy (o : option string) : bool :=
  match o with
  | Some s => negb (s =? "")%string
  | None => false
  end.

(** ** Data model *)

Module KVEntry.
Record t : Type := mk {
  key : string;
  value : string;
  version : Z;
  create_revision : Z;
  mod_revision : Z;
  lease_id : option string;
  created_at : timestamp;
  modified_at : timestamp
}.
End KVEntry.

(** A row of [kv_entries]: the eight columns of a [KVEntry] and the
    [deleted] flag (INTEGER, 0 or 1). *)
Module Row.
Record t : Type := mk {
  entry : KVEntry.t;
  deleted : Z
}.
Definition key (r : t) : string := KVEntry.key (entry r).
Definition version (r : t) : Z := KVEntry.version (entry r).
Definition mod_revision (r : t) : Z := KVEntry.mod_revision (entry r).
Definition create_revision (r : t) : Z := KVEntry.create_revision (entry r).
Definition live (r : t) : bool := deleted r =? 0.
Definition set_deleted (r : t) (d : Z) : t := mk (entry r) d.
End Row.

Module Lease.
Record t : Type := mk {
  id : string;
  ttl_s : Z;
  granted_at : timestamp;
  expires_at : timestamp;
  keys : list string
}.
Definition set_keys (l : t) (ks : list string) : t :=
  mk (id l) (ttl_s l) (granted_at l) (expires_at l) ks.
Definition set_expires_at (l : t) (e : timestamp) : t :=
  mk (id l) (ttl_s l) (granted_at l) e (keys l).
End Lease.

(** The [details] column of [revisions]: the JSON object
    [{"version": v}] for a put, NULL for a delete. *)
Inductive details : Type :=
| Version (v : Z).

(** A row of [revisions]. *)
Module RevRow.
Record t : Type := mk {
  revision : Z;
  timestamp_ : timestamp;
  operation : string;
  key : string;
  details_ : option details
}.
(** The columns the table was created with. *)
Definition columns : list string :=
  ["revision"; "timestamp"; "operation"; "key"; "details"].
End RevRow.

Module Watch.
Record t : Type := mk {
  id : string;
  key_prefix : string;
  last_revision : sqlval;
  callback_fn_name : string;
  created_at : timestamp
}.
Definition set_last_revision (w : t) (v : sqlval) : t :=
  mk (id w) (key_prefix w) v (callback_fn_name w) (created_at w).
End Watch.

Record Store : Type := mkStore {
  kv_entries : list Row.t;
  leases : list Lease.t;
  revisions : list RevRow.t;
  revision : Z;
  compacted_rev : Z;
  watches : list (string * Watch.t)
}.

(** [__init__] on a fresh data directory. *)
Definition init : Store := mkStore [] [] [] 0 0 [].

Definition set_revision (st : Store) (r : Z) : Store :=
  mkStore (kv_entries st) (leases st) (revisions st) r (compacted_rev st) (watches st).

Definition set_tables (st : Store) (kv : list Row.t) (ls : list Lease.t)
  (revs : list RevRow.t) : Store :=
  mkStore kv ls revs (revision st) (compacted_rev st) (watches st).

Definition set_leases (st : Store) (ls : list Lease.t) : Store :=
  mkStore (kv_entries st) ls (revisions st) (revision st) (compacted_rev st) (watches st).

Definition set_watches (st : Store) (ws : list (string * Watch.t)) : Store :=
  mkStore (kv_entries st) (leases st) (revisions st) (revision st) (compacted_rev st) ws.

(** ** The SQL statements the methods issue *)

(** [ORDER BY mod_revision DESC LIMIT 1] followed by [fetchone()]. *)
Fixpoint latest (rows : list Row.t) : option Row.t :=
  match rows with
  | [] => None
  | r :: rest =>
      match latest rest with
      | Some r' => if Row.mod_revision r <? Row.mod_revision r' then Some r' else Some r
      | None => Some r
      end
  end.

(** [WHERE key = ? AND deleted = 0]. *)
Definition live_rows_of (kv : list Row.t) (key : string) : list Row.t :=
  filter (fun r => (Row.key r =? key)%string && Row.live r) kv.

(** [INSERT INTO kv_entries]: PRIMARY KEY (key, mod_revision). *)
Definition insert_kv (kv : list Row.t) (r : Row.t) : outcome (list Row.t) :=
  if existsb (fun r' => (Row.key r' =? Row.key r)%string
                        && (Row.mod_revision r' =? Row.mod_revision r)) kv
  then Raised (IntegrityError "UNIQUE constraint failed: kv_entries.key, kv_entries.mod_revision")
  else Returned (kv ++ [r]).

(** [INSERT INTO revisions]: [revision INTEGER PRIMARY KEY]. *)
Definition insert_revision (revs : list RevRow.t) (r : RevRow.t) : outcome (list RevRow.t) :=
  if existsb (fun r' => RevRow.revision r' =? RevRow.revision r) revs
  then Raised (IntegrityError "UNIQUE constraint failed: revisions.revision")
  else Returned (revs ++ [r]).

(** [UPDATE kv_entries SET deleted = 1 WHERE key = ?]. *)
Definition mark_deleted (kv : list Row.t) (k : string) : list Row.t :=
  map (fun r => if (Row.key r =? k)%string then Row.set_deleted r 1 else r) kv.

(** ** Leases: binding a key *)

(** [_add_key_to_lease] opens a connection of its own.  [writer_active]
    says whether another connection holds an uncommitted write on the
    database file when it runs: SQLite admits one writer per file, so the
    UPDATE of the second connection then ends in
    [sqlite3.OperationalError: database is locked] once the busy timeout has
    passed.  The SELECT is not affected, and no UPDATE is issued when the
    lease is missing or the key is already bound. *)
Definition _add_key_to_lease (writer_active : bool) (ls : list Lease.t)
  (lease_id key : string) : outcome (list Lease.t) :=
  match find (fun l => (Lease.id l =? lease_id)%string) ls with
  | Some l =>
      if existsb (String.eqb key) (Lease.keys l) then Returned ls
      else if writer_active then Raised (OperationalError "database is locked")
      else Returned (map (fun l' => if (Lease.id l' =? lease_id)%string
                                    then Lease.set_keys l' (Lease.keys l ++ [key])
                                    else l') ls)
  | None => Returned ls
  end.

(** [if lease_id: self._add_key_to_lease(lease_id, key)] inside [put],
    whose own connection holds the uncommitted INSERTs at that point. *)
Definition bind_lease (ls : list Lease.t) (lease_id : option string)
  (key : string) : outcome (list Lease.t) :=
  match lease_id with
  | Some l => if truthy lease_id then _add_key_to_lease true ls l key else Returned ls
  | None => Returned ls
  end.

(** ** Core KV operations *)

(** [version = (row[0] if row else 0) + 1] on the latest live row. *)
Definition next_version (kv : list Row.t) (key : string) : Z :=
  match latest (live_rows_of kv key) with
  | Some r => Row.version r
  | None => 0
  end + 1.

(** [put]: the version of the latest live row plus one, a new revision, one
    row in [kv_entries] and one in [revisions], the lease binding, commit.
    [_add_key_to_lease] runs while the INSERTs of [put] are uncommitted. *)
Definition put (st : Store) (now : timestamp) (key value : string)
  (lease_id : option string) : Store * outcome Z :=
  let version := next_version (kv_entries st) key in
  let st1 := set_revision st (revision st + 1) in
  let rev := revision st1 in
  match insert_kv (kv_entries st1)
          (Row.mk (KVEntry.mk key value version rev rev lease_id now now) 0) with
  | Raised e => (st1, Raised e)
  | Returned kv' =>
      match insert_revision (revisions st1)
              (RevRow.mk rev now "put" key (Some (Version version))) with
      | Raised e => (st1, Raised e)
      | Returned revs' =>
          match bind_lease (leases st1) lease_id key with
          | Raised e => (st1, Raised e)
          | Returned ls' => (set_tables st1 kv' ls' revs', Returned rev)
          end
      end
  end.

(** [get]: the latest live row of the key, at most at [revision] when one
    is given ([revision is None] tests for [None], so 0 is a revision).
    This is the call for a [bindable] revision; for a revision beyond 64
    bits the code raises [OverflowError] where it binds the parameter, and
    what is said of [get] at such a revision says nothing of the code. *)
Definition get (st : Store) (key : string) (revision : option Z) : option KVEntry.t :=
  let rows :=
    match revision with
    | None => live_rows_of (kv_entries st) key
    | Some R => filter (fun r => (Row.key r =? key)%string
                                 && (Row.mod_revision r <=? R) && Row.live r)
                  (kv_entries st)
    end in
  option_map Row.entry (latest rows).

(** [SELECT key FROM kv_entries WHERE key >= ? AND key < ? AND deleted = 0]:
    one result row per live row of the table, compared bytewise. *)
Definition range_keys (kv : list Row.t) (key range_end : string) : list string :=
  map Row.key
    (filter (fun r => String.leb key (Row.key r)
                      && String.ltb (Row.key r) range_end && Row.live r) kv).

(** The [for row in rows] loop of [delete]. *)
Fixpoint delete_rows (kv : list Row.t) (revs : list RevRow.t) (rev : Z)
  (now : timestamp) (rows : list string) : outcome (list Row.t * list RevRow.t) :=
  match rows with
  | [] => Returned (kv, revs)
  | k :: rest =>
      let kv' := mark_deleted kv k in
      match insert_revision revs (RevRow.mk rev now "delete" k None) with
      | Raised e => Raised e
      | Returned revs' => delete_rows kv' revs' rev now rest
      end
  end.

(** [delete]: one new revision; the keys are the key itself, or with a
    truthy [range_end] one per live row in [[key, range_end)]. *)
Definition delete (st : Store) (now : timestamp) (key : string)
  (range_end : option string) : Store * outcome Z :=
  let st1 := set_revision st (revision st + 1) in
  let rev := revision st1 in
  let rows :=
    match range_end with
    | Some e => if truthy range_end then range_keys (kv_entries st1) key e else [key]
    | None => [key]
    end in
  match delete_rows (kv_entries st1) (revisions st1) rev now rows with
  | Raised e => (st1, Raised e)
  | Returned (kv', revs') => (set_tables st1 kv' (leases st1) revs', Returned rev)
  end.

(** ** Prefix reads *)

(** SQLite folds the 26 ASCII upper-case letters when it evaluates LIKE. *)
Definition to_lower (c : ascii) : ascii :=
  let n := N_of_ascii c in
  if (65 <=? n)%N && (n <=? 90)%N then ascii_of_N (n + 32) else c.

(** What SQLite's LIKE reads of a TEXT value: the characters before the
    first NUL. *)
Fixpoint c_string (s : string) : string :=
  match s with
  | EmptyString => EmptyString
  | String c s' => if (c =? "000")%char then EmptyString else String c (c_string s')
  end.

(** The matching of SQLite's [LIKE] without an ESCAPE clause: [%] matches
    any run of characters, [_] any one character, every other character
    itself up to ASCII case. *)
Fixpoint patternCompare (pattern s : string) : bool :=
  match pattern with
  | EmptyString => match s with EmptyString => true | String _ _ => false end
  | String c p' =>
      if (c =? "%")%char then
        (fix any (s : string) : bool :=
           patternCompare p' s || match s with
                                  | EmptyString => false
                                  | String _ s' => any s'
                                  end) s
      else
        match s with
        | EmptyString => false
        | String d s' =>
            ((c =? "_")%char || (to_lower c =? to_lower d)%char)
            && patternCompare p' s'
        end
  end.

(** [text LIKE pattern]: both are read up to their first NUL. *)
Definition like (pattern s : string) : bool :=
  patternCompare (c_string pattern) (c_string s).

(** [ORDER BY key] on [kv_entries]: SQLite walks the index of the primary
    key (key, mod_revision), which has the rows by key, compared bytewise,
    and the rows of one key by mod_revision. *)
Definition index_before (r r' : Row.t) : bool :=
  String.ltb (Row.key r) (Row.key r')
  || ((Row.key r =? Row.key r')%string
      && (Row.mod_revision r <=? Row.mod_revision r')).

Fixpoint insert_by_key (r : Row.t) (sorted : list Row.t) : list Row.t :=
  match sorted with
  | [] => [r]
  | r' :: rest =>
      if index_before r r' then r :: sorted
      else r' :: insert_by_key r rest
  end.

Definition order_by_key (rows : list Row.t) : list Row.t :=
  fold_right insert_by_key [] rows.

(** [get_prefix]: every live row whose key matches [f"{prefix}%"] under
    LIKE, ordered by key.  This is the call for a pattern that SQLite
    accepts: it refuses one of more than 50000 bytes ("LIKE or GLOB pattern
    too complex") as soon as it has a row to match. *)
Definition get_prefix (st : Store) (prefix : string) : list KVEntry.t :=
  map Row.entry
    (order_by_key
       (filter (fun r => like (prefix ++ "%")%string (Row.key r) && Row.live r)
          (kv_entries st))).

(** ** History *)

(** [ORDER BY mod_revision DESC]. *)
Fixpoint insert_by_mod_revision_desc (r : Row.t) (sorted : list Row.t) : list Row.t :=
  match sorted with
  | [] => [r]
  | r' :: rest =>
      if Row.mod_revision r' <=? Row.mod_revision r then r :: sorted
      else r' :: insert_by_mod_revision_desc r rest
  end.

Definition order_by_mod_revision_desc (rows : list Row.t) : list Row.t :=
  fold_right insert_by_mod_revision_desc [] rows.

(** [LIMIT ?]: a negative limit is no limit in SQLite. *)
Definition sql_limit {A : Type} (limit : Z) (rows : list A) : list A :=
  if limit <? 0 then rows else firstn (Z.to_nat limit) rows.

(** [list_revision_history]: the rows of the key, flagged or not, newest
    first.  This is the call for a limit that is a [sqlite_int]; beyond 64
    bits the code raises [OverflowError] where it binds the limit. *)
Definition list_revision_history (st : Store) (key : string) (limit : Z)
  : list KVEntry.t :=
  map Row.entry
    (sql_limit limit
       (order_by_mod_revision_desc
          (filter (fun r => (Row.key r =? key)%string) (kv_entries st)))).

(** ** Compaction *)

(** [compact]: [DELETE FROM revisions WHERE revision <= ?], then the
    in-memory mark.  A revision that does not fit 64 bits raises where it is
    bound, before the DELETE and before the mark is assigned. *)
Definition compact (st : Store) (revision_ : Z) : Store * outcome unit :=
  if fits_int64 revision_ then
    (mkStore (kv_entries st) (leases st)
       (filter (fun r => negb (RevRow.revision r <=? revision_)) (revisions st))
       (revision st) (Z.max (compacted_rev st) revision_) (watches st),
     Returned tt)
  else (st, Raised OverflowError).

(** ** Watches *)

(** [self.watches[watch_id] = watch] and [self.watches.pop(watch_id, None)]
    on a dict kept as an association list. *)
Fixpoint dict_set (d : list (string * Watch.t)) (k : string) (w : Watch.t)
  : list (string * Watch.t) :=
  match d with
  | [] => [(k, w)]
  | (k', w') :: rest =>
      if (k' =? k)%string then (k, w) :: rest else (k', w') :: dict_set rest k w
  end.

Definition dict_get (d : list (string * Watch.t)) (k : string) : option Watch.t :=
  option_map snd (find (fun kw => (fst kw =? k)%string) d).

Definition dict_pop (d : list (string * Watch.t)) (k : string)
  : list (string * Watch.t) :=
  filter (fun kw => negb (fst kw =? k)%string) d.

(** [watch]: the subscription starts at the current revision. *)
Definition watch (st : Store) (now : timestamp) (watch_id key_prefix : string)
  (callback_fn_name : string) : Store * string :=
  (set_watches st
     (dict_set (watches st) watch_id
        (Watch.mk watch_id key_prefix (SInt (revision st)) callback_fn_name now)),
   watch_id).

Definition unwatch (st : Store) (watch_id : string) : Store :=
  set_watches st (dict_pop (watches st) watch_id).

(** The value of a named column of a [revisions] row; [None] when the
    table has no such column. *)
Definition revisions_column (name : string) (r : RevRow.t) : option sqlval :=
  if (name =? "revision")%string then Some (SInt (RevRow.revision r))
  else if (name =? "timestamp")%string then Some (STime (RevRow.timestamp_ r))
  else if (name =? "operation")%string then Some (SText (RevRow.operation r))
  else if (name =? "key")%string then Some (SText (RevRow.key r))
  else if (name =? "details")%string then
    Some (match RevRow.details_ r with
          | Some (Version v) => SJson v
          | None => SNull
          end)
  else None.

(** [r.revision > ?]: an INTEGER column against the bound parameter.  NULL
    compares to nothing, and every integer sorts before every TEXT value. *)
Definition revision_gt (rev : Z) (bound : sqlval) : bool :=
  match bound with
  | SInt n => n <? rev
  | _ => false
  end.

(** [ORDER BY r.revision]. *)
Fixpoint insert_by_revision (r : RevRow.t) (sorted : list RevRow.t) : list RevRow.t :=
  match sorted with
  | [] => [r]
  | r' :: rest =>
      if RevRow.revision r <=? RevRow.revision r' then r :: sorted
      else r' :: insert_by_revision r rest
  end.

Definition order_by_revision (rows : list RevRow.t) : list RevRow.t :=
  fold_right insert_by_revision [] rows.

(** [SELECT <cols> FROM revisions r WHERE r.key LIKE ? AND r.revision > ?
    ORDER BY r.revision]: preparing the statement fails on a column the
    table does not have, whatever the rows are. *)
Definition select_revisions (cols : list string) (pattern : string)
  (bound : sqlval) (revs : list RevRow.t) : outcome (list (list sqlval)) :=
  match find (fun c => negb (existsb (String.eqb c) RevRow.columns)) cols with
  | Some c => Raised (OperationalError ("no such column: " ++ c)%string)
  | None =>
      Returned
        (map (fun r => map (fun c => match revisions_column c r with
                                     | Some v => v
                                     | None => SNull
                                     end) cols)
           (order_by_revision
              (filter (fun r => like pattern (RevRow.key r)
                                && revision_gt (RevRow.revision r) bound) revs)))
  end.

(** Python truthiness of a fetched value ([row[1] if row[1] else ""]). *)
Definition sql_truthy (v : sqlval) : bool :=
  match v with
  | SNull => false
  | SInt z => negb (z =? 0)
  | SText s => negb (s =? "")%string
  | STime _ => true
  | SJson _ => true
  end.

(** What the callback is called with: [(event_type, key, value)]. *)
Definition event : Type := (sqlval * sqlval * sqlval)%type.

Definition event_of_row (row : list sqlval) : event :=
  (nth 2 row SNull, nth 0 row SNull,
   if sql_truthy (nth 1 row SNull) then nth 1 row SNull else SText "").

(** The body of the loop of [poll_changes], after the sleep, for the
    [Watch] object [w] that the closure holds: the query, the callbacks in
    row order, and the new [last_revision], which the source takes from
    [rows[-1][2]].  Nothing in the body looks at [self.watches]: it runs the
    same in a store from which the watch has been taken out since the test
    at the loop head.  The object is the one registered under [watch_id], so
    the new [last_revision] shows there as long as it is registered.  An
    exception ends the polling thread; nothing is delivered and the store is
    as it was. *)
Definition poll_pass (st : Store) (watch_id : string) (w : Watch.t)
  : Store * outcome (list event) :=
  match select_revisions ["key"; "value"; "operation"]
          (Watch.key_prefix w ++ "%")%string (Watch.last_revision w)
          (revisions st) with
  | Raised e => (st, Raised e)
  | Returned rows =>
      let w' := match rows with
                | [] => w
                | _ :: _ => Watch.set_last_revision w (nth 2 (last rows []) SNull)
                end in
      (set_watches st
         (match dict_get (watches st) watch_id with
          | Some _ => dict_set (watches st) watch_id w'
          | None => watches st
          end),
       Returned (map event_of_row rows))
  end.

(** One turn of the [while watch_id in self.watches] loop with no other
    call between the test at the loop head and the body: when the test
    fails the loop ends and nothing is delivered, otherwise the body runs
    for the registered watch. *)
Definition poll_changes (st : Store) (watch_id : string)
  : Store * outcome (list event) :=
  match dict_get (watches st) watch_id with
  | None => (st, Returned [])
  | Some w => poll_pass st watch_id w
  end.

(** ** Lease operations *)

(** [grant_lease]: the deadline [now + timedelta(seconds=ttl_s)] is
    computed first and raises OverflowError when it is no [datetime] (a
    [ttl_s] for which it is one fits 64 bits); then the INSERT,
    [id TEXT PRIMARY KEY]. *)
Definition grant_lease (st : Store) (now : timestamp) (lease_id : string)
  (ttl_s : Z) : Store * outcome string :=
  if negb (deadline_ok now ttl_s) then (st, Raised OverflowError)
  else if existsb (fun l => (Lease.id l =? lease_id)%string) (leases st)
  then (st, Raised (IntegrityError "UNIQUE constraint failed: leases.id"))
  else (set_leases st (leases st ++ [Lease.mk lease_id ttl_s now (now + ttl_s) []]),
        Returned lease_id).

(** The [for key in keys: self.delete(key)] loop of [revoke_lease]; each
    delete commits on its own. *)
Fixpoint delete_keys (st : Store) (now : timestamp) (keys : list string)
  : Store * outcome unit :=
  match keys with
  | [] => (st, Returned tt)
  | k :: rest =>
      match delete st now k None with
      | (st', Raised e) => (st', Raised e)
      | (st', Returned _) => delete_keys st' now rest
      end
  end.

Definition revoke_lease (st : Store) (now : timestamp) (lease_id : string)
  : Store * outcome unit :=
  let drop st' :=
    set_leases st' (filter (fun l => negb (Lease.id l =? lease_id)%string) (leases st')) in
  match find (fun l => (Lease.id l =? lease_id)%string) (leases st) with
  | Some l =>
      match delete_keys st now (Lease.keys l) with
      | (st', Raised e) => (st', Raised e)
      | (st', Returned _) => (drop st', Returned tt)
      end
  | None => (drop st, Returned tt)
  end.

(** [keepalive]: the stored ttl_s is read, the new deadline
    [now + timedelta(seconds=ttl_s)] is computed, which raises OverflowError
    when it is no [datetime], and then written. *)
Definition keepalive (st : Store) (now : timestamp) (lease_id : string)
  : Store * outcome bool :=
  match find (fun l => (Lease.id l =? lease_id)%string) (leases st) with
  | None => (st, Returned false)
  | Some l =>
      if negb (deadline_ok now (Lease.ttl_s l)) then (st, Raised OverflowError)
      else
        (set_leases st
           (map (fun l' => if (Lease.id l' =? lease_id)%string
                           then Lease.set_expires_at l' (now + Lease.ttl_s l)
                           else l') (leases st)),
         Returned true)
  end.

(** One turn of [sweep_expired_leases] after the sleep. *)
Fixpoint revoke_all (st : Store) (now : timestamp) (ids : list string)
  : Store * outcome unit :=
  match ids with
  | [] => (st, Returned tt)
  | i :: rest =>
      match revoke_lease st now i with
      | (st', Raised e) => (st', Raised e)
      | (st', Returned _) => revoke_all st' now rest
      end
  end.

Definition sweep_expired_leases (st : Store) (now : timestamp) : Store * outcome unit :=
  revoke_all st now
    (map Lease.id (filter (fun l => Lease.expires_at l <? now) (leases st))).

(** ** Transactions *)

(** A compare clause [(key, op, value)] and an operation
    [(op_type, key, value)], both tuples of strings. *)
Definition clause : Type := (string * string * string)%type.
Definition txn_op : Type := (string * string * string)%type.

Module TxnResult.
Record t : Type := mk {
  succeeded : bool;
  results : list (string * Z)
}.
End TxnResult.

(** The [for key, op, value in compare] loop; [passed] only ever goes from
    true to false, and an operator other than "==" and "!=" leaves it. *)
Fixpoint eval_compare (st : Store) (compare : list clause) (passed : bool) : bool :=
  match compare with
  | [] => passed
  | (key, op, value) :: rest =>
      let entry := get st key None in
      let passed' :=
        if (op =? "==")%string
           && match entry with
              | None => true
              | Some e => negb (KVEntry.value e =? value)%string
              end
        then false
        else if (op =? "!=")%string
                && match entry with
                   | None => false
                   | Some e => (KVEntry.value e =? value)%string
                   end
        then false
        else passed in
      eval_compare st rest passed'
  end.

(** The [for op_type, key, value in ops] loop; an operation that raises
    leaves the transaction with what was applied before it. *)
Fixpoint run_ops (st : Store) (now : timestamp) (ops : list txn_op)
  (results : list (string * Z)) : Store * outcome (list (string * Z)) :=
  match ops with
  | [] => (st, Returned results)
  | (op_type, key, value) :: rest =>
      if (op_type =? "put")%string then
        match put st now key value None with
        | (st', Raised e) => (st', Raised e)
        | (st', Returned rev) => run_ops st' now rest (results ++ [(key, rev)])
        end
      else if (op_type =? "delete")%string then
        match delete st now key None with
        | (st', Raised e) => (st', Raised e)
        | (st', Returned rev) => run_ops st' now rest (results ++ [(key, rev)])
        end
      else run_ops st now rest results
  end.

Definition txn (st : Store) (now : timestamp) (compare : list clause)
  (success_ops : list txn_op) (failure_ops : option (list txn_op))
  : Store * outcome TxnResult.t :=
  let passed := eval_compare st compare true in
  let ops := if passed then success_ops
             else match failure_ops with Some f => f | None => [] end in
  match run_ops st now ops [] with
  | (st', Raised e) => (st', Raised e)
  | (st', Returned results) => (st', Returned (TxnResult.mk passed results))
  end.

(** ** Runs of the store *)

(** The calls that can change the store. *)
Inductive call : Type :=
| CPut (key value : string) (lease_id : option string)
| CDelete (key : string) (range_end : option string)
| CTxn (compare : list clause) (success_ops : list txn_op)
       (failure_ops : option (list txn_op))
| CCompact (revision_ : Z)
| CGrantLease (lease_id : string) (ttl_s : Z)
| CRevokeLease (lease_id : string)
| CKeepalive (lease_id : string)
| CSweep
| CWatch (watch_id key_prefix callback_fn_name : string)
| CUnwatch (watch_id : string)
| CPoll (watch_id : string).

(** The store a call leaves behind, whether it returned or raised. *)
Definition step (st : Store) (now : timestamp) (c : call) : Store :=
  match c with
  | CPut k v l => fst (put st now k v l)
  | CDelete k e => fst (delete st now k e)
  | CTxn cmp s f => fst (txn st now cmp s f)
  | CCompact r => fst (compact st r)
  | CGrantLease i t => fst (grant_lease st now i t)
  | CRevokeLease i => fst (revoke_lease st now i)
  | CKeepalive i => fst (keepalive st now i)
  | CSweep => fst (sweep_expired_leases st now)
  | CWatch i p f => fst (watch st now i p f)
  | CUnwatch i => unwatch st i
  | CPoll i => fst (poll_changes st i)
  end.

(** The stores a process reaches from a fresh data directory, by any calls
    at any instants, whether they return or raise. *)
Inductive reachable : Store -> Prop :=
| reachable_init : reachable init
| reachable_step (st : Store) (now : timestamp) (c : call) :
    reachable st -> reachable (step st now c).

(** ** Predicates of the specification *)

(** What holds of every store a process reaches from a fresh directory: no
    row and no log record is ahead of the counter, every row was created at
    the revision it was modified at, and no lease lists a key twice. *)
Record Inv (st : Store) : Prop := mkInv {
  inv_rows_bounded :
    Forall (fun e => KVEntry.mod_revision e <= revision st)
      (map Row.entry (kv_entries st));
  inv_log_bounded :
    Forall (fun r => RevRow.revision r <= revision st) (revisions st);
  inv_created :
    Forall (fun e => KVEntry.create_revision e = KVEntry.mod_revision e)
      (map Row.entry (kv_entries st));
  inv_lease_keys :
    Forall (fun l => NoDup (Lease.keys l)) (leases st);
  inv_log_unique :
    NoDup (map RevRow.revision (revisions st))
}.

(** The store a put leaves when it commits, and the one a delete of a
    single key leaves. *)
Definition after_put (st : Store) (now : timestamp) (key value : string)
  (lease_id : option string) (ls' : list Lease.t) : Store :=
  let version := next_version (kv_entries st) key in
  let rev := revision st + 1 in
  mkStore
    (kv_entries st ++ [Row.mk (KVEntry.mk key value version rev rev lease_id now now) 0])
    ls'
    (revisions st ++ [RevRow.mk rev now "put" key (Some (Version version))])
    rev (compacted_rev st) (watches st).

Definition after_delete (st : Store) (now : timestamp) (key : string) : Store :=
  let rev := revision st + 1 in
  mkStore (mark_deleted (kv_entries st) key) (leases st)
    (revisions st ++ [RevRow.mk rev now "delete" key None])
    rev (compacted_rev st) (watches st).

(** The counter does not go back and the compaction mark stays. *)
Definition advances (st st' : Store) : Prop :=
  revision st <= revision st' /\ compacted_rev st' = compacted_rev st.

(** A call that keeps the invariant and moves the store forward. *)
Definition preserves (st st' : Store) : Prop :=
  (Inv st -> Inv st') /\ advances st st'.

(** A compare clause as the specification words it: "==" is false on an
    absent key and otherwise compares the latest live value, "!=" is true on
    an absent key and otherwise true when the value differs.  The source
    leaves a clause with any other operator true. *)
Definition clause_passes (st : Store) (c : clause) : bool :=
  let '(key, op, value) := c in
  if (op =? "==")%string then
    match get st key None with
    | None => false
    | Some e => (KVEntry.value e =? value)%string
    end
  else if (op =? "!=")%string then
    match get st key None with
    | None => true
    | Some e => negb (KVEntry.value e =? value)%string
    end
  else true.

(** The operations of a branch that [txn] applies: puts and deletes. *)
Definition applied (ops : list txn_op) : list txn_op :=
  filter (fun o => let '(op_type, _, _) := o in
                   (op_type =? "put")%string || (op_type =? "delete")%string) ops.

(** One [{key, revision}] record per operation, the revisions counted up
    from [rev]. *)
Fixpoint number_from (rev : Z) (ops : list txn_op) : list (string * Z) :=
  match ops with
  | [] => []
  | (_, key, _) :: rest => (key, rev) :: number_from (rev + 1) rest
  end.

(** What the revision log gains from the same operations: the revision, the
    operation and the key of each record. *)
Fixpoint log_from (rev : Z) (ops : list txn_op) : list (Z * string * string) :=
  match ops with
  | [] => []
  | (op_type, key, _) :: rest => (rev, op_type, key) :: log_from (rev + 1) rest
  end.

Definition log_view (revs : list RevRow.t) : list (Z * string * string) :=
  map (fun r => (RevRow.revision r, RevRow.operation r, RevRow.key r)) revs.

(** A single put or delete of a transaction branch, as a call of its own. *)
Definition apply_op (now : timestamp) (st : Store) (o : txn_op) : Store :=
  let '(op_type, key, value) := o in
  if (op_type =? "put")%string then fst (put st now key value None)
  else if (op_type =? "delete")%string then fst (delete st now key None)
  else st.

(** The branch [txn] runs. *)
Definition branch (passed : bool) (success_ops : list txn_op)
  (failure_ops : option (list txn_op)) : list txn_op :=
  if passed then success_ops
  else match failure_ops with Some f => f | None => [] end.

(** ** Opening an existing data directory *)

(** [__init__] on a directory that already holds a database: [_init_db]
    creates the tables only if they are absent, so the rows stay, while the
    in-memory fields start over ([self.revision = 0], [self.compacted_rev =
    0], [self.watches = {}]).  Every run of the command line starts with
    it.  [init] is the same on a fresh directory. *)
Definition __init__ (st : Store) : Store :=
  mkStore (kv_entries st) (leases st) (revisions st) 0 0 [].

(** ** Cluster info *)

(** [SELECT COUNT(DISTINCT key) FROM kv_entries WHERE deleted = 0]. *)
Definition _count_keys (st : Store) : Z :=
  Z.of_nat (List.length
              (nodup string_dec (map Row.key (filter Row.live (kv_entries st))))).

(** [SELECT COUNT( * ) FROM leases WHERE expires_at > ?]. *)
Definition _count_leases (st : Store) (now : timestamp) : Z :=
  Z.of_nat (List.length (filter (fun l => now <? Lease.expires_at l) (leases st))).

Module ClusterInfo.
Record t : Type := mk {
  member_id : string;
  revision : Z;
  compacted_revision : Z;
  lease_count : Z;
  key_count : Z
}.
End ClusterInfo.

Definition get_cluster_info (st : Store) (now : timestamp) : ClusterInfo.t :=
  ClusterInfo.mk "local-node-1" (revision st) (compacted_rev st)
    (_count_leases st now) (_count_keys st).

(** ** Further predicates *)

(** The rows of [kv_entries] in the order they were written: strictly
    increasing mod_revision, none before revision 1 or ahead of the counter;
    and the live rows of every key carry the versions 1, 2, ... in that
    order. *)
Record Ordered (st : Store) : Prop := mkOrdered {
  ord_counter : 0 <= revision st;
  ord_sorted :
    StronglySorted (fun a b => Row.mod_revision a < Row.mod_revision b)
      (kv_entries st);
  ord_bounds :
    Forall (fun r => 1 <= Row.mod_revision r <= revision st) (kv_entries st);
  ord_versions :
    forall k, map Row.version (live_rows_of (kv_entries st) k)
              = map Z.of_nat (seq 1 (List.length (live_rows_of (kv_entries st) k)))
}.

(** The revision log against the entries: every entry written after the
    compaction mark has its "put" record, with its key and version, and every
    record of the log is the "put" of a stored entry or a "delete". *)
Record Logged (st : Store) : Prop := mkLogged {
  logged_entries :
    forall e, In e (map Row.entry (kv_entries st)) ->
              compacted_rev st < KVEntry.mod_revision e ->
              In (RevRow.mk (KVEntry.mod_revision e) (KVEntry.modified_at e) "put"
                    (KVEntry.key e) (Some (Version (KVEntry.version e))))
                (revisions st);
  logged_records :
    forall r, In r (revisions st) ->
              (exists e, In e (map Row.entry (kv_entries st))
                         /\ r = RevRow.mk (KVEntry.mod_revision e)
                                  (KVEntry.modified_at e) "put" (KVEntry.key e)
                                  (Some (Version (KVEntry.version e))))
              \/ (RevRow.operation r = "delete" /\ RevRow.details_ r = None)
}.

(** A string with its ASCII upper-case letters folded, as LIKE sees it. *)
Fixpoint lower (s : string) : string :=
  match s with
  | EmptyString => EmptyString
  | String c s' => String (to_lower c) (lower s')
  end.

(** A prefix without the two wildcards of LIKE. *)
Fixpoint wildcard_free (s : string) : bool :=
  match s with
  | EmptyString => true
  | String c s' => negb (c =? "%")%char && negb (c =? "_")%char && wildcard_free s'
  end.

(** A string without the character NUL: a prefix that holds one loses,
    under LIKE, what comes after it, the [%] that [get_prefix] appends
    included. *)
Fixpoint nul_free (s : string) : bool :=
  match s with
  | EmptyString => true
  | String c s' => negb (c =? "000")%char && nul_free s'
  end.

(** A prefix whose pattern stays within the 50000 bytes that SQLite
    accepts; a character takes at most two bytes. *)
Definition pattern_fits (prefix : string) : bool :=
  2 * Z.of_nat (String.length prefix) + 1 <=? 50000.


(** The keys that have a live row, each once. *)
Definition live_keys (st : Store) : list string :=
  nodup string_dec (map Row.key (filter Row.live (kv_entries st))).

(** The rows of a key, flagged or not. *)
Definition rows_of (st : Store) (key : string) : list Row.t :=
  filter (fun r => (Row.key r =? key)%string) (kv_entries st).

(** The delete operations [revoke_lease] issues for a key list. *)
Definition delete_ops (keys : list string) : list txn_op :=
  map (fun k => ("delete", k, "")) keys.

(** ** First runs *)

Example put_put_get :
  exists s1 s2,
    put init 100 "a" "1" None = (s1, Returned 1)
    /\ put s1 101 "a" "2" None = (s2, Returned 2)
    /\ get s2 "a" None = Some (KVEntry.mk "a" "2" 2 2 2 None 101 101)
    /\ get s2 "a" (Some 1) = Some (KVEntry.mk "a" "1" 1 1 1 None 100 100)
    /\ get s2 "a" (Some 0) = None.
Proof. do 2 eexists. repeat split. Qed.

Example get_prefix_cfg :
  exists s1 s2 s3,
    put init 100 "cfg/x" "1" None = (s1, Returned 1)
    /\ put s1 101 "cfg/y" "2" None = (s2, Returned 2)
    /\ put s2 102 "other" "3" None = (s3, Returned 3)
    /\ map (fun e => (KVEntry.key e, KVEntry.value e)) (get_prefix s3 "cfg/")
       = [("cfg/x", "1"); ("cfg/y", "2")].
Proof. do 3 eexists. repeat split. Qed.

Example txn_both_branches :
  exists s1 s2 s3,
    put init 100 "k" "a" None = (s1, Returned 1)
    /\ txn s1 101 [("k", "==", "a")] [("put", "k", "b")] (Some [("put", "k", "z")])
       = (s2, Returned (TxnResult.mk true [("k", 2)]))
    /\ option_map KVEntry.value (get s2 "k" None) = Some "b"
    /\ txn s2 102 [("k", "==", "a")] [("put", "k", "b")] (Some [("put", "k", "z")])
       = (s3, Returned (TxnResult.mk false [("k", 3)]))
    /\ option_map KVEntry.value (get s3 "k" None) = Some "z".
Proof. do 3 eexists. repeat split. Qed.

(** A put that names a granted lease: the UPDATE of [_add_key_to_lease]
    meets the uncommitted INSERTs of the put. *)
Example put_with_granted_lease :
  exists s1 s2,
    grant_lease init 100 "lease-00000001" 60 = (s1, Returned "lease-00000001")
    /\ put s1 101 "k" "v" (Some "lease-00000001")
       = (s2, Raised (OperationalError "database is locked"))
    /\ kv_entries s2 = [] /\ revision s2 = 1
    /\ _add_key_to_lease false (leases s1) "lease-00000001" "k"
       = Returned [Lease.mk "lease-00000001" 60 100 160 ["k"]].
Proof. do 2 eexists. repeat split. Qed.

Example like_is_a_pattern :
  like "cfg/%" "cfg/x" = true /\ like "cfg/%" "other" = false
  /\ like "a_%" "abc" = true /\ like "A%" "abc" = true
  /\ like "%" "" = true /\ like "_%" "" = false.
Proof. repeat split. Qed.

(** ** The latest row of a selection *)

Lemma latest_nil_iff (rows : list Row.t) : latest rows = None <-> rows = [].
Proof.
  destruct rows as [|r rest]; simpl; [tauto|].
  split; [|discriminate].
  destruct (latest rest) as [r'|]; [destruct (_ <? _)|]; discriminate.
Qed.

Lemma latest_In (rows : list Row.t) (r : Row.t) :
  latest rows = Some r -> In r rows.
Proof.
  revert r; induction rows as [|a rest IH]; simpl; intros r H; [discriminate|].
  destruct (latest rest) as [r'|].
  - destruct (Row.mod_revision a <? Row.mod_revision r');
      inversion H; subst; auto.
  - inversion H; auto.
Qed.

Lemma latest_max (rows : list Row.t) (r : Row.t) :
  latest rows = Some r ->
  Forall (fun r' => Row.mod_revision r' <= Row.mod_revision r) rows.
Proof.
  revert r; induction rows as [|a rest IH]; simpl; intros r H; [constructor|].
  destruct (latest rest) as [r'|] eqn:E.
  - specialize (IH r' eq_refl).
    destruct (Row.mod_revision a <? Row.mod_revision r') eqn:L;
      inversion H; subst; clear H.
    + apply Z.ltb_lt in L. constructor; [lia|assumption].
    + apply Z.ltb_ge in L. constructor; [lia|].
      eapply Forall_impl; [|exact IH]. simpl; intros; lia.
  - inversion H; subst. apply latest_nil_iff in E; subst.
    constructor; [lia|constructor].
Qed.

(** A row newer than all the others is the latest, wherever it is added
    at the end of the table. *)
Lemma latest_snoc (rows : list Row.t) (r : Row.t) :
  Forall (fun r' => Row.mod_revision r' < Row.mod_revision r) rows ->
  latest (rows ++ [r]) = Some r.
Proof.
  induction 1 as [|a rest Ha _ IH]; simpl; [reflexivity|].
  rewrite IH. destruct (Row.mod_revision a <? Row.mod_revision r) eqn:L;
    [reflexivity|]. apply Z.ltb_ge in L; lia.
Qed.

(** ** Inserting behind the counter *)

Lemma NoDup_snoc (A : Type) (l : list A) (a : A) :
  NoDup l -> ~ In a l -> NoDup (l ++ [a]).
Proof.
  induction 1 as [|x l Hx Hl IH]; simpl; intros Ha.
  - constructor; [tauto|constructor].
  - constructor.
    + intros Hin. apply in_app_or in Hin.
      destruct Hin as [Hin|[E|[]]]; [tauto|subst; tauto].
    + apply IH. tauto.
Qed.

Lemma insert_kv_fresh (kv : list Row.t) (r : Row.t) :
  Forall (fun e => KVEntry.mod_revision e < Row.mod_revision r) (map Row.entry kv) ->
  insert_kv kv r = Returned (kv ++ [r]).
Proof.
  intros H. unfold insert_kv.
  replace (existsb _ kv) with false; [reflexivity|].
  symmetry. apply not_true_is_false. intros E.
  apply existsb_exists in E. destruct E as [r' [Hin E]].
  apply andb_true_iff in E. destruct E as [_ E]. apply Z.eqb_eq in E.
  rewrite Forall_map, Forall_forall in H. specialize (H r' Hin).
  unfold Row.mod_revision in *. lia.
Qed.

Lemma insert_revision_fresh (revs : list RevRow.t) (r : RevRow.t) :
  Forall (fun r' => RevRow.revision r' < RevRow.revision r) revs ->
  insert_revision revs r = Returned (revs ++ [r]).
Proof.
  intros H. unfold insert_revision.
  replace (existsb _ revs) with false; [reflexivity|].
  symmetry. apply not_true_is_false. intros E.
  apply existsb_exists in E. destruct E as [r' [Hin E]].
  apply Z.eqb_eq in E. rewrite Forall_forall in H. specialize (H r' Hin). lia.
Qed.

Lemma insert_kv_cases (kv : list Row.t) (r : Row.t) :
  (exists e, insert_kv kv r = Raised e) \/ insert_kv kv r = Returned (kv ++ [r]).
Proof. unfold insert_kv. destruct (existsb _ kv); eauto. Qed.

Lemma insert_revision_cases (revs : list RevRow.t) (r : RevRow.t) :
  (exists e, insert_revision revs r = Raised e)
  \/ (insert_revision revs r = Returned (revs ++ [r])
      /\ ~ In (RevRow.revision r) (map RevRow.revision revs)).
Proof.
  unfold insert_revision. destruct (existsb _ revs) eqn:E; [eauto|].
  right. split; [reflexivity|]. intros Hin. apply in_map_iff in Hin.
  destruct Hin as [r' [Hr Hin]].
  assert (existsb (fun r' => RevRow.revision r' =? RevRow.revision r) revs = true)
    as C; [|congruence].
  apply existsb_exists. exists r'. split; [exact Hin|]. apply Z.eqb_eq. exact Hr.
Qed.

Lemma mark_deleted_entries (kv : list Row.t) (k : string) :
  map Row.entry (mark_deleted kv k) = map Row.entry kv.
Proof.
  unfold mark_deleted. rewrite map_map. apply map_ext.
  intros r. destruct (Row.key r =? k)%string; reflexivity.
Qed.

(** After the UPDATE of a delete no row of the key is live. *)
Lemma mark_deleted_no_live (kv : list Row.t) (k : string) (p : Row.t -> bool) :
  (forall r, p r = true -> (Row.key r =? k)%string = true /\ Row.live r = true) ->
  filter p (mark_deleted kv k) = [].
Proof.
  intros H. induction kv as [|r kv IH]; simpl; [reflexivity|].
  destruct (Row.key r =? k)%string eqn:E.
  - destruct (p (Row.set_deleted r 1)) eqn:P; [|exact IH].
    apply H in P. destruct P as [_ P]. discriminate.
  - destruct (p r) eqn:P; [|exact IH].
    apply H in P. destruct P as [P _]. congruence.
Qed.

(** ** What a put and a delete do to the store *)

Lemma put_cases (st : Store) (now : timestamp) (key value : string)
  (lease_id : option string) :
  (exists e, put st now key value lease_id
             = (set_revision st (revision st + 1), Raised e))
  \/ (exists ls', bind_lease (leases st) lease_id key = Returned ls'
                  /\ put st now key value lease_id
                     = (after_put st now key value lease_id ls', Returned (revision st + 1))).
Proof.
  unfold put. simpl.
  destruct (insert_kv_cases (kv_entries st)
              (Row.mk (KVEntry.mk key value (next_version (kv_entries st) key)
                         (revision st + 1) (revision st + 1) lease_id now now) 0))
    as [[e ->]| ->]; [left; eauto|].
  destruct (insert_revision_cases (revisions st)
              (RevRow.mk (revision st + 1) now "put" key
                 (Some (Version (next_version (kv_entries st) key)))))
    as [[e ->]|[-> _]]; [left; eauto|].
  destruct (bind_lease (leases st) lease_id key) as [ls'|e]; [|left; eauto].
  right. exists ls'. split; reflexivity.
Qed.

(** Behind the counter nothing collides: a put commits whenever the lease
    binding does not raise. *)
Lemma put_returns (st : Store) (now : timestamp) (key value : string)
  (lease_id : option string) (ls' : list Lease.t) :
  Inv st ->
  bind_lease (leases st) lease_id key = Returned ls' ->
  put st now key value lease_id
  = (after_put st now key value lease_id ls', Returned (revision st + 1)).
Proof.
  intros I B. unfold put. simpl.
  rewrite insert_kv_fresh.
  - rewrite insert_revision_fresh.
    + rewrite B. reflexivity.
    + eapply Forall_impl; [|exact (inv_log_bounded st I)]. simpl; intros; lia.
  - eapply Forall_impl; [|exact (inv_rows_bounded st I)].
    unfold Row.mod_revision; simpl; intros; lia.
Qed.

Lemma delete_rows_cases (kv : list Row.t) (revs : list RevRow.t) (rev : Z)
  (now : timestamp) (rows : list string) :
  (exists e, delete_rows kv revs rev now rows = Raised e)
  \/ (exists kv' revs',
         delete_rows kv revs rev now rows = Returned (kv', revs')
         /\ map Row.entry kv' = map Row.entry kv
         /\ Forall (fun r => In r revs \/ RevRow.revision r = rev) revs'
         /\ (NoDup (map RevRow.revision revs) -> NoDup (map RevRow.revision revs'))).
Proof.
  revert kv revs; induction rows as [|k rest IH]; intros kv revs; simpl.
  - right. exists kv, revs. repeat split; [|auto].
    apply Forall_forall; auto.
  - destruct (insert_revision_cases revs (RevRow.mk rev now "delete" k None))
      as [[e ->]|[-> Fresh]]; [left; eauto|].
    destruct (IH (mark_deleted kv k) (revs ++ [RevRow.mk rev now "delete" k None]))
      as [[e ->]|[kv' [revs' [-> [E [F U]]]]]]; [left; eauto|].
    right. exists kv', revs'. split; [reflexivity|]. split; [|split].
    + rewrite E. apply mark_deleted_entries.
    + eapply Forall_impl; [|exact F]. simpl. intros r [Hin|Hr]; [|auto].
      apply in_app_or in Hin. destruct Hin as [Hin|[<-|[]]]; auto.
    + intros N. apply U. rewrite map_app. apply NoDup_snoc; assumption.
Qed.

(** A delete of either form: the counter moves by one, and the tables are
    as before (it raised) or hold the same entries and a log that grew by
    records of the new revision only. *)
Lemma delete_cases (st : Store) (now : timestamp) (key : string)
  (range_end : option string) :
  let st' := fst (delete st now key range_end) in
  revision st' = revision st + 1
  /\ compacted_rev st' = compacted_rev st
  /\ watches st' = watches st
  /\ leases st' = leases st
  /\ map Row.entry (kv_entries st') = map Row.entry (kv_entries st)
  /\ Forall (fun r => In r (revisions st) \/ RevRow.revision r = revision st + 1)
       (revisions st')
  /\ (NoDup (map RevRow.revision (revisions st)) ->
      NoDup (map RevRow.revision (revisions st'))).
Proof.
  unfold delete. simpl.
  match goal with
  | |- context [delete_rows ?kv ?revs ?rev ?n ?rows] =>
      destruct (delete_rows_cases kv revs rev n rows)
        as [[e ->]|[kv' [revs' [-> [E [F U]]]]]]
  end; simpl; repeat split; auto.
  apply Forall_forall; auto.
Qed.

Lemma delete_key_returns (st : Store) (now : timestamp) (key : string)
  (range_end : option string) :
  Inv st -> truthy range_end = false ->
  delete st now key range_end = (after_delete st now key, Returned (revision st + 1)).
Proof.
  intros I T. unfold delete. simpl.
  replace (match range_end with
           | Some e => if truthy range_end
                       then range_keys (kv_entries st) key e else [key]
           | None => [key]
           end) with [key] by (destruct range_end; [rewrite T|]; reflexivity).
  simpl. rewrite insert_revision_fresh; [reflexivity|].
  eapply Forall_impl; [|exact (inv_log_bounded st I)]. simpl; intros; lia.
Qed.

(** ** Every call keeps the invariant *)


Lemma _add_key_to_lease_NoDup (b : bool) (ls ls' : list Lease.t) (lease_id key : string) :
  Forall (fun l => NoDup (Lease.keys l)) ls ->
  _add_key_to_lease b ls lease_id key = Returned ls' ->
  Forall (fun l => NoDup (Lease.keys l)) ls'.
Proof.
  intros F. unfold _add_key_to_lease.
  destruct (find _ ls) as [l|] eqn:Efind; [|intros H; inversion H; subst; exact F].
  destruct (existsb (String.eqb key) (Lease.keys l)) eqn:Ex;
    [intros H; inversion H; subst; exact F|].
  destruct b; [discriminate|]. intros H; inversion H; subst; clear H.
  apply find_some in Efind. destruct Efind as [Hin _].
  rewrite Forall_forall in F. apply Forall_forall. intros l' Hl'.
  apply in_map_iff in Hl'. destruct Hl' as [l0 [<- Hl0]].
  destruct (Lease.id l0 =? lease_id)%string; [|auto]. simpl.
  apply NoDup_snoc; [auto|]. intros Hk.
  assert (existsb (String.eqb key) (Lease.keys l) = true) as C; [|congruence].
  apply existsb_exists. exists key. split; [assumption|apply String.eqb_refl].
Qed.

Lemma bind_lease_NoDup (ls ls' : list Lease.t) (lease_id : option string) (key : string) :
  Forall (fun l => NoDup (Lease.keys l)) ls ->
  bind_lease ls lease_id key = Returned ls' ->
  Forall (fun l => NoDup (Lease.keys l)) ls'.
Proof.
  intros F. unfold bind_lease. destruct lease_id as [l|].
  - destruct (truthy (Some l)).
    + apply _add_key_to_lease_NoDup; assumption.
    + intros H; inversion H; subst; assumption.
  - intros H; inversion H; subst; assumption.
Qed.

Lemma preserves_refl (st : Store) : preserves st st.
Proof. split; [auto|]. split; [lia|reflexivity]. Qed.

Lemma preserves_trans (a b c : Store) :
  preserves a b -> preserves b c -> preserves a c.
Proof.
  intros [Iab [Rab Cab]] [Ibc [Rbc Cbc]]. split; [auto|].
  split; [lia|congruence].
Qed.

(** Moving the counter forward alone keeps the invariant. *)
Lemma Inv_set_revision (st : Store) (r : Z) :
  revision st <= r -> Inv st -> Inv (set_revision st r).
Proof.
  intros L [A B C D U]. constructor; simpl; auto.
  - eapply Forall_impl; [|exact A]. simpl; intros; lia.
  - eapply Forall_impl; [|exact B]. simpl; intros; lia.
Qed.

Lemma put_preserves (st : Store) (now : timestamp) (key value : string)
  (lease_id : option string) :
  preserves st (fst (put st now key value lease_id)).
Proof.
  destruct (put_cases st now key value lease_id) as [[e ->]|[ls' [B ->]]]; simpl.
  - split; [apply Inv_set_revision; lia|]. split; simpl; [lia|reflexivity].
  - split; [|split; simpl; [lia|reflexivity]].
    intros [A Bd C D U]. constructor; simpl.
    + rewrite map_app. apply Forall_app. split.
      * eapply Forall_impl; [|exact A]. simpl; intros; lia.
      * constructor; [simpl; lia|constructor].
    + apply Forall_app. split.
      * eapply Forall_impl; [|exact Bd]. simpl; intros; lia.
      * constructor; [simpl; lia|constructor].
    + rewrite map_app. apply Forall_app. split; [exact C|].
      constructor; [reflexivity|constructor].
    + eapply bind_lease_NoDup; eassumption.
    + rewrite map_app. apply NoDup_snoc; [exact U|]. simpl. intros Hin.
      apply in_map_iff in Hin. destruct Hin as [r [Hr Hin]].
      rewrite Forall_forall in Bd. specialize (Bd r Hin). lia.
Qed.

Lemma delete_preserves (st : Store) (now : timestamp) (key : string)
  (range_end : option string) :
  preserves st (fst (delete st now key range_end)).
Proof.
  destruct (delete_cases st now key range_end) as [R [C [W [L [E [F U]]]]]].
  split; [|split; [lia|assumption]].
  intros [A Bd Cr D N]. constructor; [| | | |auto].
  - rewrite E, R. eapply Forall_impl; [|exact A]. simpl; intros; lia.
  - rewrite R. rewrite Forall_forall in Bd. eapply Forall_impl; [|exact F].
    simpl. intros r [Hin|Hr]; [specialize (Bd r Hin)|]; lia.
  - rewrite E. exact Cr.
  - rewrite L. exact D.
Qed.

(** A change of the lease table or of the watches alone. *)
Lemma set_leases_preserves (st : Store) (ls : list Lease.t) :
  (Forall (fun l => NoDup (Lease.keys l)) (leases st) ->
   Forall (fun l => NoDup (Lease.keys l)) ls) ->
  preserves st (set_leases st ls).
Proof.
  intros H. split; [|split; simpl; [lia|reflexivity]].
  intros [A B C D U]. constructor; simpl; auto.
Qed.

Lemma set_watches_preserves (st : Store) (ws : list (string * Watch.t)) :
  preserves st (set_watches st ws).
Proof.
  split; [|split; simpl; [lia|reflexivity]].
  intros [A B C D U]. constructor; simpl; auto.
Qed.

Lemma delete_keys_preserves (st : Store) (now : timestamp) (keys : list string) :
  preserves st (fst (delete_keys st now keys)).
Proof.
  revert st; induction keys as [|k rest IH]; intros st; simpl;
    [apply preserves_refl|].
  pose proof (delete_preserves st now k None) as P.
  destruct (delete st now k None) as [st' [r|e]]; simpl in *; [|exact P].
  eapply preserves_trans; [exact P|apply IH].
Qed.

Lemma revoke_lease_preserves (st : Store) (now : timestamp) (lease_id : string) :
  preserves st (fst (revoke_lease st now lease_id)).
Proof.
  unfold revoke_lease.
  assert (forall s, preserves s
            (set_leases s (filter (fun l => negb (Lease.id l =? lease_id)%string)
                             (leases s)))) as Drop.
  { intros s. apply set_leases_preserves. intros F.
    apply Forall_forall. intros l Hl. apply filter_In in Hl.
    rewrite Forall_forall in F. apply F. tauto. }
  destruct (find _ (leases st)) as [l|]; simpl; [|apply Drop].
  pose proof (delete_keys_preserves st now (Lease.keys l)) as P.
  destruct (delete_keys st now (Lease.keys l)) as [st' [r|e]]; simpl in *;
    [|exact P].
  eapply preserves_trans; [exact P|apply Drop].
Qed.

Lemma revoke_all_preserves (st : Store) (now : timestamp) (ids : list string) :
  preserves st (fst (revoke_all st now ids)).
Proof.
  revert st; induction ids as [|i rest IH]; intros st; simpl;
    [apply preserves_refl|].
  pose proof (revoke_lease_preserves st now i) as P.
  destruct (revoke_lease st now i) as [st' [r|e]]; simpl in *; [|exact P].
  eapply preserves_trans; [exact P|apply IH].
Qed.

Lemma run_ops_preserves (st : Store) (now : timestamp) (ops : list txn_op)
  (results : list (string * Z)) :
  preserves st (fst (run_ops st now ops results)).
Proof.
  revert st results; induction ops as [|[[op_type key] value] rest IH];
    intros st results; simpl; [apply preserves_refl|].
  destruct (op_type =? "put")%string.
  - pose proof (put_preserves st now key value None) as P.
    destruct (put st now key value None) as [st' [r|e]]; simpl in *; [|exact P].
    eapply preserves_trans; [exact P|apply IH].
  - destruct (op_type =? "delete")%string; [|apply IH].
    pose proof (delete_preserves st now key None) as P.
    destruct (delete st now key None) as [st' [r|e]]; simpl in *; [|exact P].
    eapply preserves_trans; [exact P|apply IH].
Qed.

Lemma txn_preserves (st : Store) (now : timestamp) (compare : list clause)
  (success_ops : list txn_op) (failure_ops : option (list txn_op)) :
  preserves st (fst (txn st now compare success_ops failure_ops)).
Proof.
  unfold txn.
  match goal with
  | |- context [run_ops st now ?ops []] =>
      pose proof (run_ops_preserves st now ops []) as P;
      destruct (run_ops st now ops []) as [st' [r|e]]
  end; exact P.
Qed.

(** The poll query names a column that [revisions] does not have: a
    registered watch gets the exception, an unregistered one has left the
    loop; the store is as it was either way. *)
Lemma poll_changes_cases (st : Store) (watch_id : string) :
  poll_changes st watch_id = (st, Returned [])
  \/ poll_changes st watch_id
     = (st, Raised (OperationalError "no such column: value")).
Proof.
  unfold poll_changes. destruct (dict_get (watches st) watch_id) as [w|];
    [right|left]; reflexivity.
Qed.

(** Purging records keeps the revisions of the log distinct. *)
Lemma purge_keeps_log_unique (revs : list RevRow.t) (keep : RevRow.t -> bool) :
  NoDup (map RevRow.revision revs) ->
  NoDup (map RevRow.revision (filter keep revs)).
Proof.
  induction revs as [|a revs IH]; simpl; intros N; [constructor|].
  apply NoDup_cons_iff in N. destruct N as [Fresh N].
  destruct (keep a); simpl; [|exact (IH N)].
  apply NoDup_cons; [|exact (IH N)].
  intros Hin. apply Fresh. apply in_map_iff in Hin.
  destruct Hin as [y [Hy Hin]]. apply filter_In in Hin.
  apply in_map_iff. exists y. tauto.
Qed.

(** The two outcomes of a compaction. *)
Lemma compact_cases (st : Store) (r : Z) :
  (sqlite_int r
   /\ compact st r
      = (mkStore (kv_entries st) (leases st)
           (filter (fun x => negb (RevRow.revision x <=? r)) (revisions st))
           (revision st) (Z.max (compacted_rev st) r) (watches st),
         Returned tt))
  \/ (~ sqlite_int r /\ compact st r = (st, Raised OverflowError)).
Proof.
  unfold compact, fits_int64, sqlite_int.
  destruct (- 2 ^ 63 <=? r) eqn:Lo; destruct (r <? 2 ^ 63) eqn:Hi; simpl;
    try apply Z.leb_le in Lo; try apply Z.leb_gt in Lo;
    try apply Z.ltb_lt in Hi; try apply Z.ltb_ge in Hi;
    [left|right|right|right]; split; try reflexivity; lia.
Qed.

Lemma compact_Inv (st : Store) (r : Z) : Inv st -> Inv (fst (compact st r)).
Proof.
  intros I. destruct (compact_cases st r) as [[_ ->]|[_ ->]]; [|exact I].
  destruct I as [A B C D U]. constructor; simpl; auto.
  - apply Forall_forall. intros x Hx. apply filter_In in Hx.
    rewrite Forall_forall in B. apply B. tauto.
  - apply purge_keeps_log_unique. exact U.
Qed.

Lemma grant_lease_preserves (st : Store) (now : timestamp) (lease_id : string)
  (ttl_s : Z) :
  preserves st (fst (grant_lease st now lease_id ttl_s)).
Proof.
  unfold grant_lease. destruct (negb _); [apply preserves_refl|].
  destruct (existsb _ (leases st)); simpl; [apply preserves_refl|].
  apply set_leases_preserves. intros F. apply Forall_app. split; [exact F|].
  constructor; [simpl; constructor|constructor].
Qed.

Lemma keepalive_preserves (st : Store) (now : timestamp) (lease_id : string) :
  preserves st (fst (keepalive st now lease_id)).
Proof.
  unfold keepalive. destruct (find _ (leases st)) as [l|]; simpl;
    [|apply preserves_refl].
  destruct (negb _); simpl; [apply preserves_refl|].
  apply set_leases_preserves. intros F. rewrite Forall_forall in F.
  apply Forall_forall. intros l' Hl'. apply in_map_iff in Hl'.
  destruct Hl' as [l0 [<- Hl0]].
  destruct (Lease.id l0 =? lease_id)%string; simpl; auto.
Qed.

(** Every call other than [compact] keeps the invariant, does not move the
    counter back and leaves the compaction mark. *)
Lemma step_preserves (st : Store) (now : timestamp) (c : call) :
  (forall r, c <> CCompact r) -> preserves st (step st now c).
Proof.
  intros NC. destruct c; simpl.
  - apply put_preserves.
  - apply delete_preserves.
  - apply txn_preserves.
  - exfalso. eapply NC. reflexivity.
  - apply grant_lease_preserves.
  - apply revoke_lease_preserves.
  - apply keepalive_preserves.
  - apply revoke_all_preserves.
  - apply set_watches_preserves.
  - apply set_watches_preserves.
  - destruct (poll_changes_cases st watch_id) as [-> | ->]; apply preserves_refl.
Qed.

Lemma step_Inv (st : Store) (now : timestamp) (c : call) :
  Inv st -> Inv (step st now c).
Proof.
  intros I. destruct c;
    try (apply step_preserves; [intros r; discriminate|exact I]).
  cbn [step]. apply compact_Inv. exact I.
Qed.

Lemma init_Inv : Inv init.
Proof. constructor; simpl; constructor. Qed.

Lemma reachable_Inv (st : Store) : reachable st -> Inv st.
Proof.
  induction 1 as [|st now c _ IH]; [apply init_Inv|apply step_Inv; exact IH].
Qed.

(** ** Reads after a write *)

Lemma get_after_delete (st : Store) (now : timestamp) (key : string)
  (revision_ : option Z) :
  get (after_delete st now key) key revision_ = None.
Proof.
  unfold get, after_delete, live_rows_of. simpl.
  destruct revision_ as [R|]; rewrite mark_deleted_no_live; try reflexivity.
  - intros r H. apply andb_true_iff in H. destruct H as [H L].
    apply andb_true_iff in H. tauto.
  - intros r H. apply andb_true_iff in H. exact H.
Qed.

Lemma get_after_put (st : Store) (now : timestamp) (key value : string)
  (lease_id : option string) (ls' : list Lease.t) :
  Inv st ->
  get (after_put st now key value lease_id ls') key None
  = Some (KVEntry.mk key value (next_version (kv_entries st) key)
            (revision st + 1) (revision st + 1) lease_id now now).
Proof.
  intros I. unfold get, after_put, live_rows_of. simpl.
  rewrite filter_app. simpl. unfold Row.key at 2. simpl.
  rewrite String.eqb_refl. simpl.
  rewrite latest_snoc; [reflexivity|].
  apply Forall_forall. intros r Hr. apply filter_In in Hr. destruct Hr as [Hr _].
  pose proof (inv_rows_bounded st I) as B.
  rewrite Forall_map, Forall_forall in B. specialize (B r Hr).
  unfold Row.mod_revision. simpl. lia.
Qed.

Lemma get_In (st : Store) (key : string) (revision_ : option Z) (e : KVEntry.t) :
  get st key revision_ = Some e -> In e (map Row.entry (kv_entries st)).
Proof.
  unfold get, live_rows_of. intros H.
  destruct (latest _) as [r|] eqn:L; [|discriminate].
  inversion H; subst. apply latest_In in L.
  apply in_map. destruct revision_; apply filter_In in L; tauto.
Qed.

Lemma next_version_get (st : Store) (key : string) :
  next_version (kv_entries st) key
  = match get st key None with
    | Some prev => KVEntry.version prev
    | None => 0
    end + 1.
Proof.
  unfold next_version, get. destruct (latest _); reflexivity.
Qed.

Lemma insert_by_key_In (r x : Row.t) (l : list Row.t) :
  In x (insert_by_key r l) -> x = r \/ In x l.
Proof.
  induction l as [|a l IH]; simpl.
  - intros [<-|[]]; auto.
  - destruct (index_before r a); simpl.
    + intros [<-|[<-|H]]; auto.
    + intros [<-|H]; auto. apply IH in H. tauto.
Qed.

Lemma order_by_key_In (x : Row.t) (l : list Row.t) :
  In x (order_by_key l) -> In x l.
Proof.
  induction l as [|a l IH]; simpl; [auto|].
  intros H. apply insert_by_key_In in H. destruct H as [->|H]; auto.
Qed.

Lemma insert_by_mod_revision_desc_In (r x : Row.t) (l : list Row.t) :
  In x (insert_by_mod_revision_desc r l) -> x = r \/ In x l.
Proof.
  induction l as [|a l IH]; simpl.
  - intros [<-|[]]; auto.
  - destruct (Row.mod_revision a <=? Row.mod_revision r); simpl.
    + intros [<-|[<-|H]]; auto.
    + intros [<-|H]; auto. apply IH in H. tauto.
Qed.

Lemma order_by_mod_revision_desc_In (x : Row.t) (l : list Row.t) :
  In x (order_by_mod_revision_desc l) -> In x l.
Proof.
  induction l as [|a l IH]; simpl; [auto|].
  intros H. apply insert_by_mod_revision_desc_In in H. destruct H as [->|H]; auto.
Qed.

Lemma sql_limit_In (A : Type) (limit : Z) (x : A) (l : list A) :
  In x (sql_limit limit l) -> In x l.
Proof.
  unfold sql_limit. destruct (limit <? 0); [auto|].
  intros H. rewrite <- (firstn_skipn (Z.to_nat limit) l).
  apply in_or_app. auto.
Qed.

Lemma get_prefix_In (st : Store) (prefix : string) (e : KVEntry.t) :
  In e (get_prefix st prefix) -> In e (map Row.entry (kv_entries st)).
Proof.
  unfold get_prefix. intros H. apply in_map_iff in H.
  destruct H as [r [<- H]]. apply order_by_key_In, filter_In in H.
  apply in_map. tauto.
Qed.

Lemma list_revision_history_In (st : Store) (key : string) (limit : Z)
  (e : KVEntry.t) :
  In e (list_revision_history st key limit) ->
  In e (map Row.entry (kv_entries st)).
Proof.
  unfold list_revision_history. intros H. apply in_map_iff in H.
  destruct H as [r [<- H]].
  apply sql_limit_In, order_by_mod_revision_desc_In, filter_In in H.
  apply in_map. tauto.
Qed.

(** ** Lifetimes of a key *)

Lemma put_returns_no_lease (st : Store) (now : timestamp) (key value : string) :
  Inv st ->
  put st now key value None
  = (after_put st now key value None (leases st), Returned (revision st + 1)).
Proof. intros I. apply put_returns; [exact I|reflexivity]. Qed.

Lemma Inv_after_put (st : Store) (now : timestamp) (key value : string) :
  Inv st -> Inv (after_put st now key value None (leases st)).
Proof.
  intros I. pose proof (put_preserves st now key value None) as [P _].
  rewrite put_returns_no_lease in P by exact I. auto.
Qed.

Lemma Inv_after_delete (st : Store) (now : timestamp) (key : string) :
  Inv st -> Inv (after_delete st now key).
Proof.
  intros I. pose proof (delete_preserves st now key None) as [P _].
  rewrite delete_key_returns in P by auto. auto.
Qed.

Lemma delete_key_cases (st : Store) (now : timestamp) (key : string) :
  (exists e, delete st now key None = (set_revision st (revision st + 1), Raised e))
  \/ delete st now key None = (after_delete st now key, Returned (revision st + 1)).
Proof.
  unfold delete. simpl.
  destruct (insert_revision_cases (revisions st)
              (RevRow.mk (revision st + 1) now "delete" key None))
    as [[e ->]|[-> _]]; [left; eauto|right; reflexivity].
Qed.

Lemma live_rows_after_delete (st : Store) (now : timestamp) (key : string) :
  live_rows_of (kv_entries (after_delete st now key)) key = [].
Proof.
  unfold live_rows_of, after_delete. simpl. apply mark_deleted_no_live.
  intros r H. apply andb_true_iff in H. exact H.
Qed.

(** The first put of a lifetime. *)
Lemma get_after_put_fresh (st : Store) (now : timestamp) (key value : string)
  (lease_id : option string) (ls' : list Lease.t) :
  live_rows_of (kv_entries st) key = [] ->
  get (after_put st now key value lease_id ls') key None
  = Some (KVEntry.mk key value 1 (revision st + 1) (revision st + 1) lease_id now now).
Proof.
  intros L. unfold get, after_put, next_version, live_rows_of in *. simpl.
  rewrite filter_app, L. simpl. unfold Row.key at 1. simpl.
  rewrite String.eqb_refl. reflexivity.
Qed.

(** C9. Post-delete rebirth.  Whenever [delete(k)] and then [put(k, v)]
    return, the key is absent in between and [get(k)] is afterwards the new
    entry, with version 1 and create_revision equal to its own mod_revision,
    the revision the put returned.  In every reachable store both calls do
    return, with the next two revisions.  The scenario of the
    specification, [put("a","1") -> 1], [delete("a") -> 2], [get("a")]
    absent, [put("a","3") -> 3], [get("a")] with version 1, create_revision
    3 and mod_revision 3, is the last part. *)
Theorem put_after_delete_starts_lifetime :
  (forall (st st1 st2 : Store) (t1 t2 : timestamp) (k v : string) (r1 r2 : Z),
      delete st t1 k None = (st1, Returned r1) ->
      put st1 t2 k v None = (st2, Returned r2) ->
      get st1 k None = None
      /\ get st2 k None = Some (KVEntry.mk k v 1 r2 r2 None t2 t2))
  /\ (forall (st : Store) (t1 t2 : timestamp) (k v : string),
         reachable st ->
         exists st1 st2,
           delete st t1 k None = (st1, Returned (revision st + 1))
           /\ put st1 t2 k v None = (st2, Returned (revision st + 2)))
  /\ (exists s1 s2 s3,
         put init 100 "a" "1" None = (s1, Returned 1)
         /\ delete s1 101 "a" None = (s2, Returned 2)
         /\ get s2 "a" None = None
         /\ put s2 102 "a" "3" None = (s3, Returned 3)
         /\ get s3 "a" None = Some (KVEntry.mk "a" "3" 1 3 3 None 102 102)).
Proof.
  split; [|split].
  - intros st st1 st2 t1 t2 k v r1 r2 D P.
    destruct (delete_key_cases st t1 k) as [[e E]|E];
      rewrite E in D; inversion D; subst; clear D.
    split; [apply get_after_delete|].
    destruct (put_cases (after_delete st t1 k) t2 k v None) as [[e E']|[ls' [_ E']]];
      rewrite E' in P; inversion P; subst; clear P.
    apply get_after_put_fresh, live_rows_after_delete.
  - intros st t1 t2 k v R. apply reachable_Inv in R.
    exists (after_delete st t1 k),
      (after_put (after_delete st t1 k) t2 k v None (leases (after_delete st t1 k))).
    split; [apply delete_key_returns; auto|].
    rewrite (put_returns_no_lease _ t2 k v (Inv_after_delete st t1 k R)).
    simpl. do 2 f_equal. lia.
  - do 3 eexists. repeat split.
Qed.

Lemma put_after_delete_starts_lifetime_witness :
  delete init 7 "cfg/x" None
  = (mkStore [] [] [RevRow.mk 1 7 "delete" "cfg/x" None] 1 0 [], Returned 1)
  /\ put (mkStore [] [] [RevRow.mk 1 7 "delete" "cfg/x" None] 1 0 []) 8 "cfg/x" "on" None
     = (mkStore [Row.mk (KVEntry.mk "cfg/x" "on" 1 2 2 None 8 8) 0] []
          [RevRow.mk 1 7 "delete" "cfg/x" None;
           RevRow.mk 2 8 "put" "cfg/x" (Some (Version 1))] 2 0 [],
        Returned 2)
  /\ get (mkStore [] [] [RevRow.mk 1 7 "delete" "cfg/x" None] 1 0 []) "cfg/x" None = None
  /\ get (mkStore [Row.mk (KVEntry.mk "cfg/x" "on" 1 2 2 None 8 8) 0] []
            [RevRow.mk 1 7 "delete" "cfg/x" None;
             RevRow.mk 2 8 "put" "cfg/x" (Some (Version 1))] 2 0 []) "cfg/x" None
     = Some (KVEntry.mk "cfg/x" "on" 1 2 2 None 8 8).
Proof.
  split; [reflexivity|]. split; [reflexivity|].
  apply (proj1 put_after_delete_starts_lifetime init
           (mkStore [] [] [RevRow.mk 1 7 "delete" "cfg/x" None] 1 0 [])
           (mkStore [Row.mk (KVEntry.mk "cfg/x" "on" 1 2 2 None 8 8) 0] []
              [RevRow.mk 1 7 "delete" "cfg/x" None;
               RevRow.mk 2 8 "put" "cfg/x" (Some (Version 1))] 2 0 [])
           7 8 "cfg/x" "on" 1 2); reflexivity.
Defined.

(** C2, as the code has it.  In every store, whatever its rows and its
    counter, a put on a key with a live entry either raises and leaves the
    tables as they were, or returns the next revision and appends exactly
    one row: its version is the previous live version plus one and its
    create_revision is its own mod_revision, the revision the put returns,
    not the create_revision of the previous entry.  In a store reached from
    a fresh directory the put (without a lease) does return, and [get] then
    yields that entry.  After [put("a","1") -> 1] and [put("a","2") -> 2],
    [get("a")] has value "2", version 2, create_revision 2 and
    mod_revision 2. *)
Theorem put_on_live_key :
  (forall (st : Store) (now : timestamp) (k v : string) (l : option string)
          (prev : KVEntry.t),
      get st k None = Some prev ->
      (exists e,
          put st now k v l = (set_revision st (revision st + 1), Raised e))
      \/ (exists st',
             put st now k v l = (st', Returned (revision st + 1))
             /\ kv_entries st'
                = kv_entries st
                  ++ [Row.mk (KVEntry.mk k v (KVEntry.version prev + 1)
                                (revision st + 1) (revision st + 1) l now now) 0]))
  /\ (forall (st : Store) (now : timestamp) (k v : string) (prev : KVEntry.t),
         reachable st ->
         get st k None = Some prev ->
         exists st',
           put st now k v None = (st', Returned (revision st + 1))
           /\ get st' k None
              = Some (KVEntry.mk k v (KVEntry.version prev + 1)
                        (revision st + 1) (revision st + 1) None now now))
  /\ (exists s1 s2,
         put init 100 "a" "1" None = (s1, Returned 1)
         /\ put s1 101 "a" "2" None = (s2, Returned 2)
         /\ get s2 "a" None = Some (KVEntry.mk "a" "2" 2 2 2 None 101 101)).
Proof.
  split; [|split].
  - intros st now k v l prev G.
    destruct (put_cases st now k v l) as [[e E]|[ls' [_ E]]];
      [left; exists e; exact E|right].
    exists (after_put st now k v l ls'). split; [exact E|].
    unfold after_put. cbn [kv_entries]. rewrite next_version_get, G. reflexivity.
  - intros st now k v prev R G. apply reachable_Inv in R.
    exists (after_put st now k v None (leases st)).
    split; [apply put_returns; auto|].
    rewrite get_after_put by exact R.
    rewrite next_version_get, G. reflexivity.
  - do 2 eexists. repeat split.
Qed.

(** The first part on the store a second process opens after
    [put("a","1")]: the rows are kept and the counter is back at 0, so the
    put collides with revision 1 of the log and raises; the second part on
    the store of the process that wrote. *)
Lemma put_on_live_key_witness :
  (get (__init__ (step init 100 (CPut "a" "1" None))) "a" None
   = Some (KVEntry.mk "a" "1" 1 1 1 None 100 100)
   /\ ((exists e,
           put (__init__ (step init 100 (CPut "a" "1" None))) 101 "a" "2" None
           = (set_revision (__init__ (step init 100 (CPut "a" "1" None)))
                (revision (__init__ (step init 100 (CPut "a" "1" None))) + 1),
              Raised e))
       \/ (exists st',
              put (__init__ (step init 100 (CPut "a" "1" None))) 101 "a" "2" None
              = (st', Returned
                        (revision (__init__ (step init 100 (CPut "a" "1" None))) + 1))
              /\ kv_entries st'
                 = kv_entries (__init__ (step init 100 (CPut "a" "1" None)))
                   ++ [Row.mk (KVEntry.mk "a" "2" (1 + 1)
                                 (revision (__init__ (step init 100 (CPut "a" "1" None))) + 1)
                                 (revision (__init__ (step init 100 (CPut "a" "1" None))) + 1)
                                 None 101 101) 0])))
  /\ reachable (step init 100 (CPut "a" "1" None))
  /\ get (step init 100 (CPut "a" "1" None)) "a" None
     = Some (KVEntry.mk "a" "1" 1 1 1 None 100 100)
  /\ exists st',
      put (step init 100 (CPut "a" "1" None)) 101 "a" "2" None
      = (st', Returned (revision (step init 100 (CPut "a" "1" None)) + 1))
      /\ get st' "a" None
         = Some (KVEntry.mk "a" "2" (1 + 1)
                   (revision (step init 100 (CPut "a" "1" None)) + 1)
                   (revision (step init 100 (CPut "a" "1" None)) + 1)
                   None 101 101).
Proof.
  split.
  { split; [reflexivity|].
    apply (proj1 put_on_live_key (__init__ (step init 100 (CPut "a" "1" None)))
             101 "a" "2" None (KVEntry.mk "a" "1" 1 1 1 None 100 100)).
    reflexivity. }
  split; [apply reachable_step, reachable_init|].
  split; [reflexivity|].
  apply (proj1 (proj2 put_on_live_key) (step init 100 (CPut "a" "1" None)) 101
           "a" "2" (KVEntry.mk "a" "1" 1 1 1 None 100 100)).
  - apply reachable_step, reachable_init.
  - reflexivity.
Defined.

(** C2 as stated fails: after the two puts of the scenario the entry of
    "a" has create_revision 2, where the claim has 1. *)
Lemma put_on_live_key_counterexample :
  get (fst (put (fst (put init 100 "a" "1" None)) 101 "a" "2" None)) "a" None
  = Some (KVEntry.mk "a" "2" 2 2 2 None 101 101)
  /\ option_map KVEntry.create_revision
       (get (fst (put (fst (put init 100 "a" "1" None)) 101 "a" "2" None)) "a" None)
     <> Some 1.
Proof. split; [reflexivity|]. vm_compute. discriminate. Qed.

(** C10. Every row a put writes has create_revision and mod_revision both
    equal to the revision the put returns; so in every reachable store every
    row, and every entry returned by [get], [get_prefix] or
    [list_revision_history], has create_revision = mod_revision, and with it
    create_revision <= mod_revision. *)
Theorem create_revision_eq_mod_revision (st : Store) :
  reachable st ->
  (forall now k v l st' r,
      put st now k v l = (st', Returned r) ->
      exists e,
        map Row.entry (kv_entries st') = map Row.entry (kv_entries st) ++ [e]
        /\ KVEntry.create_revision e = r /\ KVEntry.mod_revision e = r)
  /\ Forall (fun r => Row.create_revision r = Row.mod_revision r) (kv_entries st)
  /\ (forall k R e, get st k R = Some e ->
                    KVEntry.create_revision e = KVEntry.mod_revision e)
  /\ (forall p e, In e (get_prefix st p) ->
                  KVEntry.create_revision e = KVEntry.mod_revision e)
  /\ (forall k limit e, In e (list_revision_history st k limit) ->
                        KVEntry.create_revision e = KVEntry.mod_revision e)
  /\ Forall (fun r => Row.create_revision r <= Row.mod_revision r) (kv_entries st).
Proof.
  intros R. apply reachable_Inv in R. pose proof (inv_created st R) as C.
  rewrite Forall_forall in C.
  split.
  { intros now k v l st' r P.
    destruct (put_cases st now k v l) as [[e E]|[ls' [_ E]]];
      rewrite E in P; inversion P; subst; clear P.
    eexists. split; [simpl; rewrite map_app; reflexivity|]. split; reflexivity. }
  split.
  { apply Forall_forall. intros r Hr. apply C. apply in_map. exact Hr. }
  split; [intros k Rv e G; apply C; eapply get_In; eassumption|].
  split; [intros p e G; apply C; eapply get_prefix_In; eassumption|].
  split; [intros k limit e G; apply C; eapply list_revision_history_In; eassumption|].
  apply Forall_forall. intros r Hr.
  assert (Row.create_revision r = Row.mod_revision r) as E;
    [apply C; apply in_map; exact Hr|lia].
Qed.

Lemma create_revision_eq_mod_revision_witness :
  reachable (step (step init 1 (CPut "a" "1" None)) 2 (CPut "a" "2" None))
  /\ Forall (fun r => Row.create_revision r = Row.mod_revision r)
       (kv_entries (step (step init 1 (CPut "a" "1" None)) 2 (CPut "a" "2" None))).
Proof.
  split; [apply reachable_step, reachable_step, reachable_init|].
  apply (create_revision_eq_mod_revision
           (step (step init 1 (CPut "a" "1" None)) 2 (CPut "a" "2" None))).
  apply reachable_step, reachable_step, reachable_init.
Defined.

(** ** Reads of the past *)

(** A put leaves the reads of the past alone: its row is newer than any
    revision up to the counter. *)
Lemma get_past_after_put (st : Store) (now : timestamp) (key value k : string)
  (lease_id : option string) (ls' : list Lease.t) (R : Z) :
  R <= revision st ->
  get (after_put st now key value lease_id ls') k (Some R) = get st k (Some R).
Proof.
  intros L. unfold get, after_put. simpl. rewrite filter_app. simpl.
  unfold Row.mod_revision at 2. simpl.
  replace (revision st + 1 <=? R) with false by (symmetry; apply Z.leb_gt; lia).
  rewrite andb_false_r. simpl. rewrite app_nil_r. reflexivity.
Qed.

(** A delete does not: whenever it returns, every read of the key is
    absent, at whatever revision. *)
Lemma get_absent_after_delete (st st' : Store) (now : timestamp) (key : string)
  (r : Z) (revision_ : option Z) :
  delete st now key None = (st', Returned r) ->
  get st' key revision_ = None.
Proof.
  intros D. destruct (delete_key_cases st now key) as [[e E]|E];
    rewrite E in D; inversion D; subst. apply get_after_delete.
Qed.

(** C1 on the code.  [put("a","1")] returns 1 and [get("a", 1)] is that
    entry; [delete("a")] returns 2, a revision greater than 1, and flags
    every row of "a": [get("a", 1)] is then absent, although the entry of
    revision 1 has no tombstone at a revision in (1, 1]. *)
Theorem historical_get_lost_after_delete :
  exists s1 s2,
    put init 100 "a" "1" None = (s1, Returned 1)
    /\ get s1 "a" (Some 1) = Some (KVEntry.mk "a" "1" 1 1 1 None 100 100)
    /\ delete s1 101 "a" None = (s2, Returned 2)
    /\ get s2 "a" (Some 1) = None
    /\ kv_entries s2 = [Row.mk (KVEntry.mk "a" "1" 1 1 1 None 100 100) 1].
Proof. do 2 eexists. repeat split. Qed.

(** ** Prefix reads on the code *)

(** C3 on the code.  A key with two stored versions comes back twice from
    [get_prefix], once per live row; and the prefix is a LIKE pattern, so
    "a_" returns the key "abc" and "%c" returns "abc", neither of which
    they are a prefix of. *)
Theorem get_prefix_rows_and_wildcards :
  (exists s1 s2,
      put init 100 "a" "1" None = (s1, Returned 1)
      /\ put s1 101 "a" "2" None = (s2, Returned 2)
      /\ get_prefix s2 "a"
         = [KVEntry.mk "a" "1" 1 1 1 None 100 100;
            KVEntry.mk "a" "2" 2 2 2 None 101 101])
  /\ (exists s1,
         put init 100 "abc" "1" None = (s1, Returned 1)
         /\ get_prefix s1 "a_" = [KVEntry.mk "abc" "1" 1 1 1 None 100 100]
         /\ String.prefix "a_" "abc" = false
         /\ get_prefix s1 "%c" = [KVEntry.mk "abc" "1" 1 1 1 None 100 100]
         /\ String.prefix "%c" "abc" = false).
Proof. split; [do 2 eexists|eexists]; repeat split. Qed.

(** ** Watches on the code *)

(** C4 on the code.  With the log holding a put and a delete of "k" after
    the watch was registered at revision 1, a turn of the polling loop
    raises on the column [value], which [revisions] does not have: the
    callback is not called and the watch still stands at revision 1. *)
Theorem poll_changes_delivers_nothing :
  exists s1 s2 s3 s4,
    put init 100 "k" "v1" None = (s1, Returned 1)
    /\ watch s1 101 "w1" "k" "cb" = (s2, "w1")
    /\ put s2 102 "k" "v2" None = (s3, Returned 2)
    /\ delete s3 103 "k" None = (s4, Returned 3)
    /\ log_view (revisions s4) = [(1, "put", "k"); (2, "put", "k"); (3, "delete", "k")]
    /\ poll_changes s4 "w1"
       = (s4, Raised (OperationalError "no such column: value"))
    /\ dict_get (watches (fst (poll_changes s4 "w1"))) "w1"
       = Some (Watch.mk "w1" "k" (SInt 1) "cb" 101).
Proof. do 4 eexists. repeat split. Qed.

(** ** The counter under a failing write *)

(** A put or a delete that raises leaves the tables as they were and the
    counter one further; one that returns has taken exactly that revision. *)
Lemma put_raised (st st' : Store) (now : timestamp) (key value : string)
  (lease_id : option string) (e : exn) :
  put st now key value lease_id = (st', Raised e) ->
  st' = set_revision st (revision st + 1).
Proof.
  intros H.
  destruct (put_cases st now key value lease_id) as [[e' E]|[ls' [_ E]]];
    rewrite E in H; inversion H; reflexivity.
Qed.

Lemma delete_raised (st st' : Store) (now : timestamp) (key : string)
  (range_end : option string) (e : exn) :
  delete st now key range_end = (st', Raised e) ->
  st' = set_revision st (revision st + 1).
Proof.
  unfold delete.
  destruct (delete_rows _ _ _ _ _) as [[kv' revs']|e']; intros H; inversion H.
  reflexivity.
Qed.

Lemma put_returned (st st' : Store) (now : timestamp) (key value : string)
  (lease_id : option string) (r : Z) :
  put st now key value lease_id = (st', Returned r) ->
  r = revision st + 1 /\ revision st' = r.
Proof.
  intros H.
  destruct (put_cases st now key value lease_id) as [[e' E]|[ls' [_ E]]];
    rewrite E in H; inversion H. split; reflexivity.
Qed.

Lemma delete_returned (st st' : Store) (now : timestamp) (key : string)
  (range_end : option string) (r : Z) :
  delete st now key range_end = (st', Returned r) ->
  r = revision st + 1 /\ revision st' = r.
Proof.
  unfold delete.
  destruct (delete_rows _ _ _ _ _) as [[kv' revs']|e']; intros H; inversion H.
  split; reflexivity.
Qed.

(** The primary key of [revisions]: no two records share a revision. *)
Lemma log_revisions_unique (st : Store) :
  reachable st -> NoDup (map RevRow.revision (revisions st)).
Proof. intros R. apply reachable_Inv in R. exact (inv_log_unique st R). Qed.

(** A range delete over two live rows or more always ends in the
    exception: its log records share the one revision. *)
Lemma delete_rows_two (kv : list Row.t) (revs : list RevRow.t) (rev : Z)
  (now : timestamp) (k1 k2 : string) (rest : list string) :
  exists e, delete_rows kv revs rev now (k1 :: k2 :: rest) = Raised e.
Proof.
  simpl.
  destruct (insert_revision_cases revs (RevRow.mk rev now "delete" k1 None))
    as [[e ->]|[-> _]]; [eauto|].
  unfold insert_revision at 1. rewrite existsb_app. simpl.
  rewrite Z.eqb_refl, orb_true_r. eauto.
Qed.

(** C5 on the code.  With two live rows in the range, the second log
    record of a range delete collides with the first on the primary key of
    [revisions]: the delete raises, the tables are rolled back, and the
    counter has moved from 2 to 3 all the same. *)
Theorem failed_delete_advances_revision :
  exists s1 s2 s3,
    put init 100 "a" "1" None = (s1, Returned 1)
    /\ put s1 101 "b" "2" None = (s2, Returned 2)
    /\ delete s2 102 "a" (Some "c")
       = (s3, Raised (IntegrityError "UNIQUE constraint failed: revisions.revision"))
    /\ kv_entries s3 = kv_entries s2
    /\ revisions s3 = revisions s2
    /\ revision s2 = 2
    /\ revision s3 = 3.
Proof. do 3 eexists. repeat split. Qed.

(** ** Compaction on the code *)

Lemma filter_idem (A : Type) (p : A -> bool) (l : list A) :
  filter p (filter p l) = filter p l.
Proof.
  induction l as [|a l IH]; simpl; [reflexivity|].
  destruct (p a) eqn:E; simpl; [rewrite E, IH|]; auto.
Qed.

(** C7, as the code has it.  [compact(r)] has no FutureRevision check.
    For every [r] that SQLite can bind (64 bits, signed), whether or not it
    is beyond the counter, the call returns: it sets compacted_rev to the
    maximum of the old mark and [r], purges exactly the log records with
    revision <= r and touches nothing else; compacting again at [r] changes
    nothing.  For every other [r] it raises OverflowError and the store is
    as it was.  compacted_rev <= revision is kept by a compact at a
    revision not beyond the counter and by a compact that raises, by every
    other call, and by opening the database again; a compact beyond the
    counter that returns breaks it. *)
Theorem compact_spec (st : Store) (r : Z) :
  (sqlite_int r ->
   exists st',
     compact st r = (st', Returned tt)
     /\ compacted_rev st' = Z.max (compacted_rev st) r
     /\ (forall rec, In rec (revisions st')
                     <-> In rec (revisions st) /\ r < RevRow.revision rec)
     /\ revision st' = revision st
     /\ kv_entries st' = kv_entries st
     /\ leases st' = leases st
     /\ watches st' = watches st
     /\ compact st' r = (st', Returned tt))
  /\ (~ sqlite_int r -> compact st r = (st, Raised OverflowError))
  /\ (compacted_rev st <= revision st -> r <= revision st ->
      compacted_rev (fst (compact st r)) <= revision (fst (compact st r)))
  /\ (sqlite_int r -> revision st < r ->
      revision (fst (compact st r)) < compacted_rev (fst (compact st r)))
  /\ (forall now c, (forall r', c <> CCompact r') ->
                    compacted_rev st <= revision st ->
                    compacted_rev (step st now c) <= revision (step st now c))
  /\ compacted_rev (__init__ st) <= revision (__init__ st).
Proof.
  split; [|split; [|split; [|split; [|split]]]].
  - intros Fit. destruct (compact_cases st r) as [[_ E]|[N _]]; [|contradiction].
    eexists. split; [exact E|]. cbn [compacted_rev revisions revision kv_entries
                                       leases watches].
    split; [reflexivity|]. split.
    { intros rec. rewrite filter_In, negb_true_iff, Z.leb_gt. tauto. }
    split; [reflexivity|]. split; [reflexivity|]. split; [reflexivity|].
    split; [reflexivity|].
    match goal with
    | |- compact ?s r = _ => destruct (compact_cases s r) as [[_ E']|[N _]];
                               [|contradiction]
    end.
    rewrite E'. cbn [compacted_rev revisions revision kv_entries leases watches].
    rewrite filter_idem.
    replace (Z.max (Z.max (compacted_rev st) r) r) with (Z.max (compacted_rev st) r)
      by lia.
    reflexivity.
  - intros N. destruct (compact_cases st r) as [[Fit _]|[_ E]];
      [contradiction|exact E].
  - intros L Hr. destruct (compact_cases st r) as [[_ ->]|[_ ->]];
      cbn [fst compacted_rev revision]; lia.
  - intros Fit Hr. destruct (compact_cases st r) as [[_ ->]|[N _]];
      [cbn [fst compacted_rev revision]; lia|contradiction].
  - intros now c NC L. destruct (step_preserves st now c NC) as [_ [A B]]. lia.
  - cbn. lia.
Qed.

Lemma compact_spec_witness :
  (sqlite_int 1
   /\ exists st',
       compact (step init 1 (CPut "a" "1" None)) 1 = (st', Returned tt)
       /\ compacted_rev st' = Z.max (compacted_rev (step init 1 (CPut "a" "1" None))) 1
       /\ (forall rec, In rec (revisions st')
                       <-> In rec (revisions (step init 1 (CPut "a" "1" None)))
                           /\ 1 < RevRow.revision rec)
       /\ revision st' = revision (step init 1 (CPut "a" "1" None))
       /\ kv_entries st' = kv_entries (step init 1 (CPut "a" "1" None))
       /\ leases st' = leases (step init 1 (CPut "a" "1" None))
       /\ watches st' = watches (step init 1 (CPut "a" "1" None))
       /\ compact st' 1 = (st', Returned tt))
  /\ (~ sqlite_int (2 ^ 63)
      /\ compact (step init 1 (CPut "a" "1" None)) (2 ^ 63)
         = (step init 1 (CPut "a" "1" None), Raised OverflowError)).
Proof.
  assert (sqlite_int 1) as Fit by (unfold sqlite_int; lia).
  assert (~ sqlite_int (2 ^ 63)) as Big by (unfold sqlite_int; lia).
  split.
  - split; [exact Fit|].
    exact (proj1 (compact_spec (step init 1 (CPut "a" "1" None)) 1) Fit).
  - split; [exact Big|].
    exact (proj1 (proj2 (compact_spec (step init 1 (CPut "a" "1" None)) (2 ^ 63)))
             Big).
Defined.

(** C7 as stated fails: on a fresh store, whose revision is 0,
    [compact(5)] is carried out, and compacted_rev is 5 afterwards. *)
Lemma compact_future_revision_counterexample :
  revision init = 0
  /\ compact init 5 = (mkStore [] [] [] 0 5 [], Returned tt)
  /\ ~ (compacted_rev (fst (compact init 5)) <= revision (fst (compact init 5))).
Proof.
  split; [reflexivity|]. split; [reflexivity|].
  vm_compute. intros H. apply H. reflexivity.
Qed.

(** ** Lease binding on the code *)

Lemma find_map_id (f : Lease.t -> Lease.t) (i : string) (ls : list Lease.t) :
  (forall x, Lease.id (f x) = Lease.id x) ->
  find (fun x => (Lease.id x =? i)%string) (map f ls)
  = option_map f (find (fun x => (Lease.id x =? i)%string) ls).
Proof.
  intros H. induction ls as [|a ls IH]; simpl; [reflexivity|].
  rewrite H. destruct (Lease.id a =? i)%string; [reflexivity|exact IH].
Qed.






(** ** Transactions *)

(** The flag of the compare loop is the conjunction of the clauses. *)
Lemma eval_compare_forallb (st : Store) (compare : list clause) (passed : bool) :
  eval_compare st compare passed = passed && forallb (clause_passes st) compare.
Proof.
  revert passed; induction compare as [|[[key op] value] rest IH];
    intros passed; simpl; [rewrite andb_true_r; reflexivity|].
  rewrite IH. destruct (op =? "==")%string eqn:E1.
  - apply String.eqb_eq in E1. subst op. simpl.
    destruct (get st key None) as [e|]; simpl;
      [destruct (KVEntry.value e =? value)%string; simpl|];
      destruct passed; reflexivity.
  - simpl. destruct (op =? "!=")%string; simpl; [|reflexivity].
    destruct (get st key None) as [e|]; simpl;
      [destruct (KVEntry.value e =? value)%string; simpl|];
      destruct passed; reflexivity.
Qed.




Lemma applied_cons (op_type key value : string) (rest : list txn_op) :
  applied ((op_type, key, value) :: rest)
  = if (op_type =? "put")%string || (op_type =? "delete")%string
    then (op_type, key, value) :: applied rest
    else applied rest.
Proof. reflexivity. Qed.

Lemma log_view_snoc (revs : list RevRow.t) (r : RevRow.t) :
  log_view (revs ++ [r])
  = log_view revs ++ [(RevRow.revision r, RevRow.operation r, RevRow.key r)].
Proof. unfold log_view. rewrite map_app. reflexivity. Qed.

(** Behind the counter the loop over a branch runs to its end: every put
    and delete returns the next revision and adds its record to the log. *)
Lemma run_ops_returns (st : Store) (now : timestamp) (ops : list txn_op)
  (results : list (string * Z)) :
  Inv st ->
  run_ops st now ops results
  = (fold_left (apply_op now) ops st,
     Returned (results ++ number_from (revision st + 1) (applied ops)))
  /\ revision (fold_left (apply_op now) ops st)
     = revision st + Z.of_nat (List.length (applied ops))
  /\ log_view (revisions (fold_left (apply_op now) ops st))
     = log_view (revisions st) ++ log_from (revision st + 1) (applied ops).
Proof.
  revert st results; induction ops as [|[[op_type key] value] rest IH];
    intros st results I.
  - simpl. rewrite !app_nil_r. repeat split. lia.
  - rewrite applied_cons. cbn [run_ops fold_left apply_op].
    destruct (op_type =? "put")%string eqn:E1.
    + rewrite put_returns_no_lease by exact I. cbn [fst orb].
      destruct (IH (after_put st now key value None (leases st))
                  (results ++ [(key, revision st + 1)])
                  (Inv_after_put st now key value I)) as [Run [Rev Log]].
      rewrite Run, Rev, Log. apply String.eqb_eq in E1. subst op_type.
      cbn [number_from log_from List.length after_put revision revisions].
      rewrite log_view_snoc, <- !app_assoc.
      cbn [app RevRow.revision RevRow.operation RevRow.key].
      split; [reflexivity|]. split; [lia|reflexivity].
    + destruct (op_type =? "delete")%string eqn:E2; cbn [orb].
      * rewrite delete_key_returns by auto. cbn [fst].
        destruct (IH (after_delete st now key)
                    (results ++ [(key, revision st + 1)])
                    (Inv_after_delete st now key I)) as [Run [Rev Log]].
        rewrite Run, Rev, Log. apply String.eqb_eq in E2. subst op_type.
        cbn [number_from log_from List.length after_delete revision revisions].
        rewrite log_view_snoc, <- !app_assoc.
        cbn [app RevRow.revision RevRow.operation RevRow.key].
        split; [reflexivity|]. split; [lia|reflexivity].
      * apply IH. exact I.
Qed.

(** In any store, a loop over a branch that runs to its end has applied
    every put and delete of the branch, each with the next revision and its
    record in the log. *)
Lemma run_ops_returned (st st' : Store) (now : timestamp) (ops : list txn_op)
  (results res : list (string * Z)) :
  run_ops st now ops results = (st', Returned res) ->
  res = results ++ number_from (revision st + 1) (applied ops)
  /\ st' = fold_left (apply_op now) ops st
  /\ revision st' = revision st + Z.of_nat (List.length (applied ops))
  /\ log_view (revisions st')
     = log_view (revisions st) ++ log_from (revision st + 1) (applied ops).
Proof.
  revert st results; induction ops as [|[[op_type key] value] rest IH];
    intros st results.
  - cbn [run_ops]. intros H; inversion H; subst. cbn. rewrite !app_nil_r.
    repeat split. lia.
  - rewrite applied_cons. cbn [run_ops fold_left apply_op].
    destruct (op_type =? "put")%string eqn:E1.
    + destruct (put_cases st now key value None) as [[e E]|[ls' [_ E]]];
        rewrite E; cbn [fst orb]; [discriminate|]. intros H.
      destruct (IH _ _ H) as [Res [Fold [Rev Log]]]. subst res st'.
      rewrite Rev, Log. apply String.eqb_eq in E1. subst op_type.
      cbn [number_from log_from List.length after_put revision revisions].
      rewrite log_view_snoc, <- !app_assoc.
      cbn [app RevRow.revision RevRow.operation RevRow.key].
      split; [reflexivity|]. split; [reflexivity|]. split; [lia|reflexivity].
    + destruct (op_type =? "delete")%string eqn:E2; cbn [orb]; [|apply IH].
      destruct (delete_key_cases st now key) as [[e E]|E];
        rewrite E; cbn [fst]; [discriminate|]. intros H.
      destruct (IH _ _ H) as [Res [Fold [Rev Log]]]. subst res st'.
      rewrite Rev, Log. apply String.eqb_eq in E2. subst op_type.
      cbn [number_from log_from List.length after_delete revision revisions].
      rewrite log_view_snoc, <- !app_assoc.
      cbn [app RevRow.revision RevRow.operation RevRow.key].
      split; [reflexivity|]. split; [reflexivity|]. split; [lia|reflexivity].
Qed.

(** A loop over a branch that raises has applied the operations before
    one put or delete, and that one raised; the exception is its
    exception and the store is the store it left. *)
Lemma run_ops_raised (st st' : Store) (now : timestamp) (ops : list txn_op)
  (results : list (string * Z)) (e : exn) :
  run_ops st now ops results = (st', Raised e) ->
  exists pre op_type key value post res0,
    ops = pre ++ (op_type, key, value) :: post
    /\ run_ops st now pre results = (fold_left (apply_op now) pre st, Returned res0)
    /\ ((op_type = "put"
         /\ put (fold_left (apply_op now) pre st) now key value None = (st', Raised e))
        \/ (op_type = "delete"
            /\ delete (fold_left (apply_op now) pre st) now key None
               = (st', Raised e))).
Proof.
  revert st results; induction ops as [|[[op_type key] value] rest IH];
    intros st results; [discriminate|].
  cbn [run_ops]. destruct (op_type =? "put")%string eqn:E1.
  - destruct (put st now key value None) as [st1 [r|x]] eqn:P; intros H.
    + destruct (IH _ _ H) as [pre [o [k [v [post [res0 [Eo [Run Raise]]]]]]]].
      exists ((op_type, key, value) :: pre), o, k, v, post, res0.
      split; [rewrite Eo; reflexivity|].
      cbn [run_ops fold_left apply_op]. rewrite E1, P. cbn [fst].
      split; [exact Run|exact Raise].
    + inversion H; subst.
      exists [], op_type, key, value, rest, results.
      split; [reflexivity|]. split; [reflexivity|].
      left. apply String.eqb_eq in E1. split; [exact E1|exact P].
  - destruct (op_type =? "delete")%string eqn:E2.
    + destruct (delete st now key None) as [st1 [r|x]] eqn:P; intros H.
      * destruct (IH _ _ H) as [pre [o [k [v [post [res0 [Eo [Run Raise]]]]]]]].
        exists ((op_type, key, value) :: pre), o, k, v, post, res0.
        split; [rewrite Eo; reflexivity|].
        cbn [run_ops fold_left apply_op]. rewrite E1, E2, P. cbn [fst].
        split; [exact Run|exact Raise].
      * inversion H; subst.
        exists [], op_type, key, value, rest, results.
        split; [reflexivity|]. split; [reflexivity|].
        right. apply String.eqb_eq in E2. split; [exact E2|exact P].
    + intros H.
      destruct (IH _ _ H) as [pre [o [k [v [post [res0 [Eo [Run Raise]]]]]]]].
      exists ((op_type, key, value) :: pre), o, k, v, post, res0.
      split; [rewrite Eo; reflexivity|].
      cbn [run_ops fold_left apply_op]. rewrite E1, E2.
      split; [exact Run|exact Raise].
Qed.

(** C6.  "==" is false on an absent key and otherwise compares the latest
    live value; "!=" is true on an absent key and otherwise true when the
    value differs; [succeeded] is the conjunction of the clauses.  The
    branch that runs is [success_ops] when all clauses pass and
    [failure_ops] otherwise (nothing when it is omitted).  In every store,
    whenever [txn] returns, the puts and deletes of that branch have been
    applied in order, each has taken the next revision, and [results] and
    the revision log have gained one record per applied operation, in that
    order.  [txn] has no handler: when it raises, it is a put or a delete of
    the branch that raised, the operations before it have been applied and
    those after it have not run.  In a store reached from a fresh directory
    [txn] returns. *)
Theorem txn_spec (st : Store) (now : timestamp) (compare : list clause)
  (success_ops : list txn_op) (failure_ops : option (list txn_op)) :
  let passed := forallb (clause_passes st) compare in
  let ops := branch passed success_ops failure_ops in
  (forall k v,
      match get st k None with
      | None => clause_passes st (k, "==", v) = false
                /\ clause_passes st (k, "!=", v) = true
      | Some e => clause_passes st (k, "==", v) = (KVEntry.value e =? v)%string
                  /\ clause_passes st (k, "!=", v) = negb (KVEntry.value e =? v)%string
      end)
  /\ (forall st' res,
         txn st now compare success_ops failure_ops = (st', Returned res) ->
         res = TxnResult.mk passed (number_from (revision st + 1) (applied ops))
         /\ st' = fold_left (apply_op now) ops st
         /\ revision st' = revision st + Z.of_nat (List.length (applied ops))
         /\ log_view (revisions st')
            = log_view (revisions st) ++ log_from (revision st + 1) (applied ops))
  /\ (forall st' e,
         txn st now compare success_ops failure_ops = (st', Raised e) ->
         exists pre op_type key value post res0,
           ops = pre ++ (op_type, key, value) :: post
           /\ run_ops st now pre [] = (fold_left (apply_op now) pre st, Returned res0)
           /\ ((op_type = "put"
                /\ put (fold_left (apply_op now) pre st) now key value None
                   = (st', Raised e))
               \/ (op_type = "delete"
                   /\ delete (fold_left (apply_op now) pre st) now key None
                      = (st', Raised e))))
  /\ (reachable st ->
      exists st',
        txn st now compare success_ops failure_ops
        = (st', Returned (TxnResult.mk passed
                            (number_from (revision st + 1) (applied ops))))
        /\ st' = fold_left (apply_op now) ops st
        /\ revision st' = revision st + Z.of_nat (List.length (applied ops))
        /\ log_view (revisions st')
           = log_view (revisions st) ++ log_from (revision st + 1) (applied ops)).
Proof.
  intros passed ops.
  assert (txn st now compare success_ops failure_ops
          = match run_ops st now ops [] with
            | (st', Raised e) => (st', Raised e)
            | (st', Returned results) => (st', Returned (TxnResult.mk passed results))
            end) as T.
  { unfold txn. rewrite eval_compare_forallb. reflexivity. }
  split; [|split; [|split]].
  - intros k v. simpl. destruct (get st k None); split; reflexivity.
  - intros st' res H. rewrite T in H.
    destruct (run_ops st now ops []) as [s [results|x]] eqn:Run; inversion H; subst.
    destruct (run_ops_returned _ _ _ _ _ _ Run) as [Res [Fold [Rev Log]]].
    rewrite Res. repeat split; assumption.
  - intros st' e H. rewrite T in H.
    destruct (run_ops st now ops []) as [s [results|x]] eqn:Run; inversion H; subst.
    exact (run_ops_raised _ _ _ _ _ _ Run).
  - intros R. apply reachable_Inv in R.
    exists (fold_left (apply_op now) ops st).
    destruct (run_ops_returns st now ops [] R) as [Run [Rev Log]].
    split; [|repeat split; assumption].
    rewrite T, Run. reflexivity.
Qed.

(** On the store of the process that wrote "k" the transaction returns; on
    the store a second process opens afterwards the clause passes as well,
    and the put of the branch collides with revision 1 and raises. *)
Lemma txn_spec_witness :
  (reachable (step init 100 (CPut "k" "a" None))
   /\ exists st',
       txn (step init 100 (CPut "k" "a" None)) 101
         [("k", "==", "a")] [("put", "k", "b")] (Some [("put", "k", "z")])
       = (st', Returned (TxnResult.mk true [("k", 2)]))
       /\ get st' "k" None = Some (KVEntry.mk "k" "b" 2 2 2 None 101 101)
       /\ log_view (revisions st') = [(1, "put", "k"); (2, "put", "k")])
  /\ (txn (__init__ (step init 100 (CPut "k" "a" None))) 101
        [("k", "==", "a")] [("put", "k", "b")] (Some [("put", "k", "z")])
      = (set_revision (__init__ (step init 100 (CPut "k" "a" None))) 1,
         Raised (IntegrityError
                   "UNIQUE constraint failed: kv_entries.key, kv_entries.mod_revision"))
      /\ exists pre op_type key value post res0,
          [("put", "k", "b")] = pre ++ (op_type, key, value) :: post
          /\ run_ops (__init__ (step init 100 (CPut "k" "a" None))) 101 pre []
             = (fold_left (apply_op 101) pre
                  (__init__ (step init 100 (CPut "k" "a" None))),
                Returned res0)
          /\ ((op_type = "put"
               /\ put (fold_left (apply_op 101) pre
                         (__init__ (step init 100 (CPut "k" "a" None))))
                    101 key value None
                  = (set_revision (__init__ (step init 100 (CPut "k" "a" None))) 1,
                     Raised (IntegrityError
                               "UNIQUE constraint failed: kv_entries.key, kv_entries.mod_revision")))
              \/ (op_type = "delete"
                  /\ delete (fold_left (apply_op 101) pre
                               (__init__ (step init 100 (CPut "k" "a" None))))
                       101 key None
                     = (set_revision (__init__ (step init 100 (CPut "k" "a" None))) 1,
                        Raised (IntegrityError
                                  "UNIQUE constraint failed: kv_entries.key, kv_entries.mod_revision"))))).
Proof.
  split.
  - split; [apply reachable_step, reachable_init|].
    destruct (txn_spec (step init 100 (CPut "k" "a" None)) 101
                [("k", "==", "a")] [("put", "k", "b")] (Some [("put", "k", "z")]))
      as [_ [_ [_ Ret]]].
    destruct (Ret (reachable_step init 100 (CPut "k" "a" None) reachable_init))
      as [st' [T [F [_ L]]]].
    exists st'. split; [exact T|]. split; [rewrite F; reflexivity|exact L].
  - split; [reflexivity|].
    destruct (txn_spec (__init__ (step init 100 (CPut "k" "a" None))) 101
                [("k", "==", "a")] [("put", "k", "b")] (Some [("put", "k", "z")]))
      as [_ [_ [Rs _]]].
    exact (Rs _ _ eq_refl).
Defined.

(** ** What a read returns *)

(** X1. For a revision that SQLite can bind, or none, [get(key, revision)]
    returns the live row of the key with the greatest mod_revision among
    those at or below [revision] (among all of them when no revision is
    given), and nothing exactly when no live row of the key is in that
    range. *)
Theorem get_is_latest_live_row (st : Store) (k : string) (R : option Z) :
  bindable R ->
  let visible r :=
    (Row.key r =? k)%string && Row.live r
    && match R with None => true | Some x => Row.mod_revision r <=? x end in
  match get st k R with
  | Some e =>
      exists r, In r (kv_entries st) /\ visible r = true /\ Row.entry r = e
                /\ forall r', In r' (kv_entries st) -> visible r' = true ->
                              Row.mod_revision r' <= KVEntry.mod_revision e
  | None => forall r, In r (kv_entries st) -> visible r = false
  end.
Proof.
  intros _ visible. unfold get.
  set (p := fun r => match R with
                     | None => (Row.key r =? k)%string && Row.live r
                     | Some x => (Row.key r =? k)%string
                                 && (Row.mod_revision r <=? x) && Row.live r
                     end).
  assert (forall r, p r = visible r) as PV.
  { intros r. unfold p, visible. destruct R as [x|];
      destruct (Row.key r =? k)%string, (Row.live r);
      try destruct (Row.mod_revision r <=? x); reflexivity. }
  replace (match R with
           | Some x => filter (fun r => (Row.key r =? k)%string
                                        && (Row.mod_revision r <=? x) && Row.live r)
                         (kv_entries st)
           | None => live_rows_of (kv_entries st) k
           end) with (filter p (kv_entries st))
    by (unfold p, live_rows_of; destruct R; reflexivity).
  destruct (latest (filter p (kv_entries st))) as [r|] eqn:L; simpl.
  - pose proof (latest_In _ _ L) as Hin. pose proof (latest_max _ _ L) as Hmax.
    apply filter_In in Hin. destruct Hin as [Hin Hp].
    exists r. split; [exact Hin|]. split; [rewrite <- PV; exact Hp|].
    split; [reflexivity|]. intros r' Hin' Hv.
    rewrite Forall_forall in Hmax. apply Hmax. apply filter_In.
    split; [exact Hin'|rewrite PV; exact Hv].
  - apply latest_nil_iff in L. intros r Hin. rewrite <- PV.
    destruct (p r) eqn:E; [|reflexivity].
    assert (In r (filter p (kv_entries st))) as C by (apply filter_In; auto).
    rewrite L in C. destruct C.
Qed.

Lemma get_is_latest_live_row_witness :
  bindable (Some 1)
  /\ exists r,
      In r (kv_entries (step (step init 100 (CPut "a" "1" None)) 101
                          (CPut "a" "2" None)))
      /\ (Row.key r =? "a")%string && Row.live r && (Row.mod_revision r <=? 1) = true
      /\ Row.entry r = KVEntry.mk "a" "1" 1 1 1 None 100 100
      /\ forall r',
           In r' (kv_entries (step (step init 100 (CPut "a" "1" None)) 101
                                (CPut "a" "2" None))) ->
           (Row.key r' =? "a")%string && Row.live r' && (Row.mod_revision r' <=? 1)
           = true ->
           Row.mod_revision r' <= 1.
Proof.
  assert (bindable (Some 1)) as B by (unfold bindable, sqlite_int; lia).
  split; [exact B|].
  exact (get_is_latest_live_row
           (step (step init 100 (CPut "a" "1" None)) 101 (CPut "a" "2" None))
           "a" (Some 1) B).
Defined.

(** ** Writes touch one key *)

Lemma mark_deleted_other (kv : list Row.t) (k k' : string) (p : Row.t -> bool) :
  k' <> k ->
  (forall r, p r = true -> (Row.key r =? k')%string = true) ->
  filter p (mark_deleted kv k) = filter p kv.
Proof.
  intros N H. induction kv as [|r kv IH]; simpl; [reflexivity|].
  destruct (Row.key r =? k)%string eqn:E; [|rewrite IH; reflexivity].
  apply String.eqb_eq in E.
  assert (forall d, p (Row.set_deleted r d) = false) as F.
  { intros d. destruct (p (Row.set_deleted r d)) eqn:P; [|reflexivity].
    apply H in P. apply String.eqb_eq in P.
    unfold Row.key in *. simpl in P. congruence. }
  assert (p r = false) as F'.
  { destruct (p r) eqn:P; [|reflexivity].
    apply H in P. apply String.eqb_eq in P. congruence. }
  rewrite F, F'. exact IH.
Qed.

Lemma get_other_after_delete (st : Store) (now : timestamp) (k k' : string)
  (R : option Z) :
  k' <> k -> get (after_delete st now k) k' R = get st k' R.
Proof.
  intros N. unfold get, after_delete, live_rows_of. simpl.
  destruct R as [x|]; rewrite (mark_deleted_other _ k k' _ N); try reflexivity.
  - intros r H. apply andb_true_iff in H. destruct H as [H _].
    apply andb_true_iff in H. tauto.
  - intros r H. apply andb_true_iff in H. tauto.
Qed.

Lemma get_other_after_put (st : Store) (now : timestamp) (k v k' : string)
  (l : option string) (ls' : list Lease.t) (R : option Z) :
  k' <> k -> get (after_put st now k v l ls') k' R = get st k' R.
Proof.
  intros N. apply String.eqb_neq in N. rewrite String.eqb_sym in N.
  unfold get, after_put, live_rows_of. simpl.
  destruct R as [x|]; rewrite filter_app; simpl;
    unfold Row.key at 2; simpl; rewrite N; simpl; rewrite app_nil_r; reflexivity.
Qed.

(** X2. A put and a single-key delete change the reads of their own key
    only: whatever they do (return or raise), [get] of any other key gives,
    at every revision, what it gave before. *)
Theorem writes_touch_one_key (st : Store) (now : timestamp) (k v k' : string)
  (l : option string) (R : option Z) :
  k' <> k ->
  get (fst (put st now k v l)) k' R = get st k' R
  /\ get (fst (delete st now k None)) k' R = get st k' R.
Proof.
  intros N. split.
  - destruct (put_cases st now k v l) as [[e ->]|[ls' [_ ->]]]; simpl;
      [reflexivity|apply get_other_after_put; exact N].
  - destruct (delete_key_cases st now k) as [[e ->]| ->]; simpl;
      [reflexivity|apply get_other_after_delete; exact N].
Qed.

Lemma writes_touch_one_key_witness :
  get (fst (put (fst (put init 1 "b" "x" None)) 2 "a" "1" None)) "b" (Some 1)
  = get (fst (put init 1 "b" "x" None)) "b" (Some 1)
  /\ get (fst (delete (fst (put init 1 "b" "x" None)) 2 "a" None)) "b" (Some 1)
     = get (fst (put init 1 "b" "x" None)) "b" (Some 1).
Proof.
  apply (writes_touch_one_key (fst (put init 1 "b" "x" None)) 2 "a" "1" "b"
           None (Some 1)).
  discriminate.
Defined.

(** ** Deleting what is not there, and deleting a range *)

Lemma filter_nil_weaken (A : Type) (p q : A -> bool) (l : list A) :
  (forall x, q x = true -> p x = true) -> filter p l = [] -> filter q l = [].
Proof.
  intros H. induction l as [|a l IH]; simpl; [reflexivity|].
  destruct (p a) eqn:P; [discriminate|]. intros E.
  destruct (q a) eqn:Q; [apply H in Q; congruence|auto].
Qed.

Lemma get_none_at_every_revision (st : Store) (k : string) (R : option Z) :
  get st k None = None -> get st k R = None.
Proof.
  unfold get. intros H. destruct R as [x|]; [|exact H].
  destruct (latest (live_rows_of (kv_entries st) k)) eqn:L; [discriminate|].
  apply latest_nil_iff in L.
  assert (filter (fun r => (Row.key r =? k)%string && (Row.mod_revision r <=? x)
                           && Row.live r) (kv_entries st) = []) as E.
  { eapply filter_nil_weaken; [|exact L]. cbv beta. intros r Hr.
    apply andb_true_iff in Hr. destruct Hr as [Hr Hl].
    apply andb_true_iff in Hr. destruct Hr as [Hk _].
    rewrite Hk, Hl. reflexivity. }
  rewrite E. reflexivity.
Qed.

(** X3. A delete of a key that has no live entry is still a mutation: in
    every reachable store it returns the next revision and appends a
    "delete" record for the key to the revision log, while every read, of
    any key at any revision, is as before. *)
Theorem delete_of_absent_key (st : Store) (now : timestamp) (k : string) :
  reachable st ->
  get st k None = None ->
  exists st',
    delete st now k None = (st', Returned (revision st + 1))
    /\ revision st' = revision st + 1
    /\ log_view (revisions st')
       = log_view (revisions st) ++ [(revision st + 1, "delete", k)]
    /\ forall k' R, get st' k' R = get st k' R.
Proof.
  intros Re G. apply reachable_Inv in Re.
  exists (after_delete st now k).
  split; [apply delete_key_returns; auto|]. split; [reflexivity|].
  split; [simpl; apply log_view_snoc|].
  intros k' R. destruct (string_dec k' k) as [->|N].
  - rewrite get_after_delete. symmetry.
    apply get_none_at_every_revision. exact G.
  - apply get_other_after_delete. exact N.
Qed.

Lemma delete_of_absent_key_witness :
  exists st',
    delete init 5 "ghost" None = (st', Returned (revision init + 1))
    /\ revision st' = revision init + 1
    /\ log_view (revisions st')
       = log_view (revisions init) ++ [(revision init + 1, "delete", "ghost")]
    /\ forall k' R, get st' k' R = get init k' R.
Proof.
  apply (delete_of_absent_key init 5 "ghost"); [apply reachable_init|reflexivity].
Defined.

(** X4. A range delete (a non-empty [range_end]) in a reachable store:
    with no live row in the range it returns the next revision and writes
    nothing, not even a log record; with one live row it does what the
    single-key delete of that row's key does; with two live rows or more,
    of one key or of several, it raises IntegrityError on the revision log,
    the tables stay as they were and the counter has moved. *)
Theorem range_delete_by_rows (st : Store) (now : timestamp) (k e : string) :
  reachable st ->
  e <> "" ->
  match range_keys (kv_entries st) k e with
  | [] =>
      delete st now k (Some e)
      = (set_revision st (revision st + 1), Returned (revision st + 1))
  | [k1] =>
      delete st now k (Some e) = (after_delete st now k1, Returned (revision st + 1))
  | _ :: _ :: _ =>
      delete st now k (Some e)
      = (set_revision st (revision st + 1),
         Raised (IntegrityError "UNIQUE constraint failed: revisions.revision"))
  end.
Proof.
  intros Re Ne. apply reachable_Inv in Re.
  assert (truthy (Some e) = true) as T.
  { simpl. apply negb_true_iff, String.eqb_neq. exact Ne. }
  assert (forall key, insert_revision (revisions st)
                        (RevRow.mk (revision st + 1) now "delete" key None)
                      = Returned (revisions st
                                  ++ [RevRow.mk (revision st + 1) now "delete" key None]))
    as Fresh.
  { intros key. apply insert_revision_fresh.
    eapply Forall_impl; [|exact (inv_log_bounded st Re)]. simpl; intros; lia. }
  unfold delete. rewrite T. cbn [set_revision kv_entries revision revisions].
  destruct (range_keys (kv_entries st) k e) as [|k1 [|k2 rest]];
    cbn [delete_rows]; try rewrite Fresh; try reflexivity.
  unfold insert_revision. rewrite existsb_app. simpl.
  rewrite Z.eqb_refl, orb_true_r. reflexivity.
Qed.

Lemma range_delete_by_rows_witness :
  delete (step (step init 1 (CPut "a" "1" None)) 2 (CPut "a" "2" None)) 3
    "a" (Some "b")
  = (set_revision (step (step init 1 (CPut "a" "1" None)) 2 (CPut "a" "2" None))
       (revision (step (step init 1 (CPut "a" "1" None)) 2 (CPut "a" "2" None)) + 1),
     Raised (IntegrityError "UNIQUE constraint failed: revisions.revision")).
Proof.
  exact (range_delete_by_rows
           (step (step init 1 (CPut "a" "1" None)) 2 (CPut "a" "2" None)) 3 "a" "b"
           (reachable_step _ 2 _ (reachable_step _ 1 _ reachable_init))
           ltac:(discriminate)).
Defined.

(** ** Calls as compositions of puts and deletes *)

Section Composition.

Variable Rel : Store -> Store -> Prop.
Hypothesis Rel_refl : forall st, Rel st st.
Hypothesis Rel_trans : forall a b c, Rel a b -> Rel b c -> Rel a c.
Hypothesis Rel_put : forall st now k v l, Rel st (fst (put st now k v l)).
Hypothesis Rel_delete : forall st now k e, Rel st (fst (delete st now k e)).

Lemma Rel_run_ops (st : Store) (now : timestamp) (ops : list txn_op)
  (results : list (string * Z)) :
  Rel st (fst (run_ops st now ops results)).
Proof.
  revert st results; induction ops as [|[[op_type key] value] rest IH];
    intros st results; simpl; [apply Rel_refl|].
  destruct (op_type =? "put")%string.
  - pose proof (Rel_put st now key value None) as P.
    destruct (put st now key value None) as [st' [r|e]]; simpl in *; [|exact P].
    eapply Rel_trans; [exact P|apply IH].
  - destruct (op_type =? "delete")%string; [|apply IH].
    pose proof (Rel_delete st now key None) as P.
    destruct (delete st now key None) as [st' [r|e]]; simpl in *; [|exact P].
    eapply Rel_trans; [exact P|apply IH].
Qed.

Lemma Rel_txn (st : Store) (now : timestamp) (compare : list clause)
  (success_ops : list txn_op) (failure_ops : option (list txn_op)) :
  Rel st (fst (txn st now compare success_ops failure_ops)).
Proof.
  unfold txn.
  match goal with
  | |- context [run_ops st now ?ops []] =>
      pose proof (Rel_run_ops st now ops []) as P;
      destruct (run_ops st now ops []) as [st' [r|e]]
  end; exact P.
Qed.

Lemma Rel_delete_keys (st : Store) (now : timestamp) (keys : list string) :
  Rel st (fst (delete_keys st now keys)).
Proof.
  revert st; induction keys as [|k rest IH]; intros st; simpl; [apply Rel_refl|].
  pose proof (Rel_delete st now k None) as P.
  destruct (delete st now k None) as [st' [r|e]]; simpl in *; [|exact P].
  eapply Rel_trans; [exact P|apply IH].
Qed.

End Composition.

(** A property of the key-value tables and the counter that every put,
    delete and compact keeps holds in every reachable store: the other
    calls are made of these and of updates of the leases and the watches. *)
Section TableInvariants.

Variable P : Store -> Prop.
Hypothesis P_init : P init.
Hypothesis P_put : forall st now k v l, P st -> P (fst (put st now k v l)).
Hypothesis P_delete : forall st now k e, P st -> P (fst (delete st now k e)).
Hypothesis P_compact : forall st r, P st -> P (fst (compact st r)).
Hypothesis P_leases : forall st ls, P st -> P (set_leases st ls).
Hypothesis P_watches : forall st ws, P st -> P (set_watches st ws).

Lemma P_revoke_lease (st : Store) (now : timestamp) (lease_id : string) :
  P st -> P (fst (revoke_lease st now lease_id)).
Proof.
  unfold revoke_lease. destruct (find _ (leases st)) as [l|]; simpl;
    [|apply P_leases].
  pose proof (Rel_delete_keys (fun a b => P a -> P b)
                (fun _ H => H) (fun _ _ _ F G H => G (F H))
                P_delete st now (Lease.keys l)) as D.
  destruct (delete_keys st now (Lease.keys l)) as [st' [r|e]]; simpl in *;
    [|exact D].
  intros H. apply P_leases, D, H.
Qed.

Lemma P_revoke_all (st : Store) (now : timestamp) (ids : list string) :
  P st -> P (fst (revoke_all st now ids)).
Proof.
  revert st; induction ids as [|i rest IH]; intros st H; simpl; [exact H|].
  pose proof (P_revoke_lease st now i H) as R.
  destruct (revoke_lease st now i) as [st' [r|e]]; simpl in *; [|exact R].
  apply IH, R.
Qed.

Lemma P_step (st : Store) (now : timestamp) (c : call) : P st -> P (step st now c).
Proof.
  intros H. destruct c; simpl.
  - apply P_put, H.
  - apply P_delete, H.
  - exact (Rel_txn (fun a b => P a -> P b) (fun _ H => H)
             (fun _ _ _ F G H => G (F H)) P_put P_delete
             st now compare success_ops failure_ops H).
  - apply P_compact, H.
  - unfold grant_lease. destruct (negb _); [exact H|].
    destruct (existsb _ (leases st)); simpl; [exact H|apply P_leases, H].
  - apply P_revoke_lease, H.
  - unfold keepalive. destruct (find _ (leases st)); simpl; [|exact H].
    destruct (negb _); simpl; [exact H|apply P_leases, H].
  - apply P_revoke_all, H.
  - apply P_watches, H.
  - apply P_watches, H.
  - destruct (poll_changes_cases st watch_id) as [-> | ->]; exact H.
Qed.

Lemma reachable_tables (st : Store) : reachable st -> P st.
Proof.
  induction 1 as [|st now c _ IH]; [exact P_init|apply P_step, IH].
Qed.

End TableInvariants.

(** ** The order of the rows and the versions of a key *)

Lemma rows_sorted_snoc (l : list Row.t) (x : Row.t) :
  StronglySorted (fun a b => Row.mod_revision a < Row.mod_revision b) l ->
  Forall (fun a => Row.mod_revision a < Row.mod_revision x) l ->
  StronglySorted (fun a b => Row.mod_revision a < Row.mod_revision b) (l ++ [x]).
Proof.
  induction 1 as [|a l S IH F]; simpl; intros B.
  - constructor; constructor.
  - inversion B; subst. constructor; [apply IH; assumption|].
    apply Forall_app. split; [exact F|constructor; [assumption|constructor]].
Qed.

Lemma rows_sorted_before_last (l : list Row.t) (x : Row.t) :
  StronglySorted (fun a b => Row.mod_revision a < Row.mod_revision b) (l ++ [x]) ->
  Forall (fun a => Row.mod_revision a < Row.mod_revision x) l.
Proof.
  induction l as [|a l IH]; simpl; intros S; [constructor|].
  inversion S as [|y ys S' F]; subst. constructor; [|apply IH; exact S'].
  rewrite Forall_forall in F. apply F. apply in_or_app. simpl. auto.
Qed.

Lemma rows_sorted_filter (p : Row.t -> bool) (l : list Row.t) :
  StronglySorted (fun a b => Row.mod_revision a < Row.mod_revision b) l ->
  StronglySorted (fun a b => Row.mod_revision a < Row.mod_revision b) (filter p l).
Proof.
  induction 1 as [|a l S IH F]; simpl; [constructor|].
  destruct (p a); [|exact IH]. constructor; [exact IH|].
  rewrite Forall_forall in *. intros y Hy. apply F.
  apply filter_In in Hy. tauto.
Qed.

Lemma rows_sorted_by_entries (kv kv' : list Row.t) :
  map Row.entry kv' = map Row.entry kv ->
  StronglySorted (fun a b => Row.mod_revision a < Row.mod_revision b) kv ->
  StronglySorted (fun a b => Row.mod_revision a < Row.mod_revision b) kv'.
Proof.
  intros E S. revert kv' E.
  induction S as [|a l S IH F]; intros [|a' l'] E; simpl in E;
    try discriminate; [constructor|].
  inversion E as [[Ea El]]. constructor; [apply IH; exact El|].
  unfold Row.mod_revision in *. rewrite Ea.
  apply (Forall_map Row.entry
           (fun e => KVEntry.mod_revision (Row.entry a) < KVEntry.mod_revision e)).
  rewrite El. apply Forall_map. exact F.
Qed.

Lemma rows_bounds_by_entries (kv kv' : list Row.t) (lo hi : Z) :
  map Row.entry kv' = map Row.entry kv ->
  Forall (fun r => lo <= Row.mod_revision r <= hi) kv ->
  Forall (fun r => lo <= Row.mod_revision r <= hi) kv'.
Proof.
  intros E F. unfold Row.mod_revision in *.
  apply (Forall_map Row.entry (fun e => lo <= KVEntry.mod_revision e <= hi)).
  rewrite E. apply Forall_map. exact F.
Qed.

Lemma live_rows_mark_deleted (kv : list Row.t) (k0 k : string) :
  live_rows_of (mark_deleted kv k0) k
  = if (k =? k0)%string then [] else live_rows_of kv k.
Proof.
  unfold live_rows_of. destruct (k =? k0)%string eqn:E.
  - apply String.eqb_eq in E. subst. apply mark_deleted_no_live.
    intros r H. apply andb_true_iff in H. exact H.
  - apply String.eqb_neq in E. apply (mark_deleted_other _ k0 k); [exact E|].
    intros r H. apply andb_true_iff in H. tauto.
Qed.

Lemma delete_rows_live (kv : list Row.t) (revs : list RevRow.t) (rev : Z)
  (now : timestamp) (rows : list string) (kv' : list Row.t) (revs' : list RevRow.t)
  (k : string) :
  delete_rows kv revs rev now rows = Returned (kv', revs') ->
  live_rows_of kv' k = live_rows_of kv k \/ live_rows_of kv' k = [].
Proof.
  revert kv revs; induction rows as [|k0 rest IH]; intros kv revs; simpl.
  - intros H; inversion H; subst. auto.
  - destruct (insert_revision revs _) as [revs1|e]; [|discriminate].
    intros H. apply IH in H. rewrite live_rows_mark_deleted in H.
    destruct (k =? k0)%string; tauto.
Qed.

Lemma delete_live_rows (st : Store) (now : timestamp) (k0 : string)
  (e : option string) (k : string) :
  live_rows_of (kv_entries (fst (delete st now k0 e))) k
  = live_rows_of (kv_entries st) k
  \/ live_rows_of (kv_entries (fst (delete st now k0 e))) k = [].
Proof.
  unfold delete.
  destruct (delete_rows _ _ _ _ _) as [[kv' revs']|x] eqn:D; simpl; [|auto].
  eapply delete_rows_live. exact D.
Qed.

(** In rows written in order, the version the next put continues from is
    the number of live rows of the key. *)
Lemma version_of_latest (kv : list Row.t) (k : string) :
  StronglySorted (fun a b => Row.mod_revision a < Row.mod_revision b) kv ->
  map Row.version (live_rows_of kv k)
  = map Z.of_nat (seq 1 (List.length (live_rows_of kv k))) ->
  match latest (live_rows_of kv k) with
  | Some r => Row.version r
  | None => 0
  end = Z.of_nat (List.length (live_rows_of kv k)).
Proof.
  intros Srt V. apply (rows_sorted_filter (fun r => (Row.key r =? k)%string && Row.live r))
    in Srt. fold (live_rows_of kv k) in Srt.
  destruct (live_rows_of kv k) as [|a l] eqn:E using rev_ind; [reflexivity|].
  clear IHl. rewrite latest_snoc by (apply rows_sorted_before_last; exact Srt).
  rewrite length_app, Nat.add_comm in V.
  change (List.length [a] + List.length l)%nat with (S (List.length l)) in V.
  rewrite map_app, seq_S, map_app in V. cbn [map] in V.
  apply app_inj_tail in V. destruct V as [_ V].
  rewrite length_app, Nat.add_comm.
  change (List.length [a] + List.length l)%nat with (S (List.length l)).
  rewrite V. reflexivity.
Qed.

Lemma live_rows_snoc (kv : list Row.t) (e : KVEntry.t) (k0 : string) :
  live_rows_of (kv ++ [Row.mk e 0]) k0
  = live_rows_of kv k0
    ++ (if (KVEntry.key e =? k0)%string then [Row.mk e 0] else []).
Proof.
  unfold live_rows_of, Row.key, Row.live. rewrite filter_app. simpl.
  destruct (KVEntry.key e =? k0)%string; reflexivity.
Qed.

Lemma Ordered_init : Ordered init.
Proof. constructor; simpl; try constructor; try lia. Qed.

Lemma Ordered_put (st : Store) (now : timestamp) (k v : string)
  (l : option string) :
  Ordered st -> Ordered (fst (put st now k v l)).
Proof.
  intros [C Srt B V].
  destruct (put_cases st now k v l) as [[e ->]|[ls' [_ ->]]]; simpl.
  - constructor; simpl; try assumption; [lia|].
    eapply Forall_impl; [|exact B]. simpl; intros; lia.
  - constructor; simpl.
    + lia.
    + apply rows_sorted_snoc; [exact Srt|].
      eapply Forall_impl; [|exact B]. unfold Row.mod_revision. simpl; intros; lia.
    + apply Forall_app. split.
      * eapply Forall_impl; [|exact B]. simpl; intros; lia.
      * constructor; [unfold Row.mod_revision; simpl; lia|constructor].
    + intros k0. rewrite live_rows_snoc. cbn [KVEntry.key].
      destruct (k =? k0)%string eqn:E.
      * apply String.eqb_eq in E. subst k0.
        rewrite length_app, Nat.add_comm.
        change (List.length [Row.mk (KVEntry.mk k v (next_version (kv_entries st) k)
                                       (revision st + 1) (revision st + 1) l now now) 0]
                + List.length (live_rows_of (kv_entries st) k))%nat
          with (S (List.length (live_rows_of (kv_entries st) k))).
        rewrite map_app, seq_S, map_app, V. cbn [map]. do 2 f_equal.
        unfold Row.version, next_version. cbn [Row.entry KVEntry.version].
        rewrite (version_of_latest _ k Srt (V k)). lia.
      * rewrite app_nil_r. apply V.
Qed.

Lemma Ordered_delete (st : Store) (now : timestamp) (k : string)
  (e : option string) :
  Ordered st -> Ordered (fst (delete st now k e)).
Proof.
  intros [C S B V].
  destruct (delete_cases st now k e) as [R [_ [_ [_ [E _]]]]].
  constructor.
  - lia.
  - eapply rows_sorted_by_entries; eassumption.
  - rewrite R. eapply rows_bounds_by_entries; [exact E|].
    eapply Forall_impl; [|exact B]. simpl; intros; lia.
  - intros k0. destruct (delete_live_rows st now k e k0) as [-> | ->];
      [apply V|reflexivity].
Qed.

Lemma reachable_Ordered (st : Store) : reachable st -> Ordered st.
Proof.
  apply reachable_tables.
  - exact Ordered_init.
  - exact Ordered_put.
  - exact Ordered_delete.
  - intros s r O. destruct (compact_cases s r) as [[_ ->]|[_ ->]]; [|exact O].
    destruct O as [C S B V]. constructor; assumption.
  - intros s ls [C S B V]. constructor; assumption.
  - intros s ws [C S B V]. constructor; assumption.
Qed.

(** X5. In every reachable store the rows of [kv_entries] stand in the
    order they were written, with strictly increasing mod_revision between 1
    and the counter: no two entries, of any keys, share a mod_revision. *)
Theorem mod_revisions_strictly_increase (st : Store) :
  reachable st ->
  StronglySorted (fun a b => Row.mod_revision a < Row.mod_revision b) (kv_entries st)
  /\ Forall (fun r => 1 <= Row.mod_revision r <= revision st) (kv_entries st)
  /\ NoDup (map Row.mod_revision (kv_entries st)).
Proof.
  intros R. destruct (reachable_Ordered st R) as [C S B V].
  split; [exact S|]. split; [exact B|].
  clear B V. induction S as [|a l S IH F]; simpl; constructor; [|exact IH].
  intros Hin. apply in_map_iff in Hin. destruct Hin as [b [E Hb]].
  rewrite Forall_forall in F. specialize (F b Hb). lia.
Qed.

Lemma mod_revisions_strictly_increase_witness :
  NoDup (map Row.mod_revision
           (kv_entries (step (step init 1 (CPut "a" "1" None)) 2 (CPut "b" "2" None)))).
Proof.
  apply (mod_revisions_strictly_increase
           (step (step init 1 (CPut "a" "1" None)) 2 (CPut "b" "2" None))).
  apply reachable_step, reachable_step, reachable_init.
Defined.

(** X6. In every reachable store the live rows of a key carry the
    versions 1, 2, ..., n in the order they were written, and [get(key)]
    returns version n: the version of the latest entry is the number of
    live rows of the key, the puts it has seen since it was last deleted. *)
Theorem version_counts_live_rows (st : Store) (k : string) :
  reachable st ->
  map Row.version (live_rows_of (kv_entries st) k)
  = map Z.of_nat (seq 1 (List.length (live_rows_of (kv_entries st) k)))
  /\ match get st k None with
     | Some e => KVEntry.version e
     | None => 0
     end = Z.of_nat (List.length (live_rows_of (kv_entries st) k)).
Proof.
  intros R. destruct (reachable_Ordered st R) as [C S B V].
  split; [apply V|].
  rewrite <- (version_of_latest _ k S (V k)). unfold get.
  destruct (latest _); reflexivity.
Qed.

Lemma version_counts_live_rows_witness :
  match get (step (step (step init 1 (CPut "a" "1" None)) 2 (CDelete "a" None)) 3
               (CPut "a" "2" None)) "a" None with
  | Some e => KVEntry.version e
  | None => 0
  end = 1.
Proof.
  apply (version_counts_live_rows
           (step (step (step init 1 (CPut "a" "1" None)) 2 (CDelete "a" None)) 3
              (CPut "a" "2" None)) "a").
  apply reachable_step, reachable_step, reachable_step, reachable_init.
Defined.

(** ** What a prefix read returns *)

Lemma insert_by_key_perm (r : Row.t) (l : list Row.t) :
  Permutation (insert_by_key r l) (r :: l).
Proof.
  induction l as [|a l IH]; simpl; [apply Permutation_refl|].
  destruct (index_before r a); [apply Permutation_refl|].
  eapply perm_trans; [apply perm_skip, IH|apply perm_swap].
Qed.

Lemma order_by_key_perm (l : list Row.t) : Permutation (order_by_key l) l.
Proof.
  induction l as [|a l IH]; simpl; [constructor|].
  eapply perm_trans; [apply insert_by_key_perm|apply perm_skip, IH].
Qed.








(** One step of the matching at a [%]. *)
Lemma like_percent (q s : string) :
  patternCompare (String "%" q) s
  = patternCompare q s || match s with
                          | EmptyString => false
                          | String _ s' => patternCompare (String "%" q) s'
                          end.
Proof. destruct s; reflexivity. Qed.

Lemma like_literal (c : ascii) (q s : string) :
  (c =? "%")%char = false ->
  patternCompare (String c q) s
  = match s with
    | EmptyString => false
    | String d s' =>
        ((c =? "_")%char || (to_lower c =? to_lower d)%char) && patternCompare q s'
    end.
Proof. intros E. simpl. rewrite E. destruct s; reflexivity. Qed.

Lemma like_percent_alone (s : string) : patternCompare "%" s = true.
Proof.
  induction s as [|c s IH]; rewrite like_percent; [reflexivity|].
  rewrite IH. apply orb_true_r.
Qed.

Lemma c_string_cons (c : ascii) (s : string) :
  c_string (String c s)
  = if (c =? "000")%char then EmptyString else String c (c_string s).
Proof. reflexivity. Qed.


Lemma get_prefix_In_iff (st : Store) (prefix : string) (e : KVEntry.t) :
  In e (get_prefix st prefix)
  <-> exists r, In r (kv_entries st) /\ Row.live r = true /\ Row.entry r = e
                /\ like (prefix ++ "%") (Row.key r) = true.
Proof.
  unfold get_prefix. rewrite in_map_iff. split.
  - intros [r [E H]]. apply (Permutation_in _ (order_by_key_perm _)) in H.
    apply filter_In in H. destruct H as [H P]. apply andb_true_iff in P.
    exists r. tauto.
  - intros [r [H [L [E K]]]]. exists r. split; [exact E|].
    apply (Permutation_in _ (Permutation_sym (order_by_key_perm _))).
    apply filter_In. split; [exact H|]. rewrite K, L. reflexivity.
Qed.



Lemma to_lower_eqb (c d : ascii) :
  (to_lower c =? to_lower d)%char
  = if ascii_dec (to_lower c) (to_lower d) then true else false.
Proof.
  destruct (ascii_dec (to_lower c) (to_lower d)) as [E|N].
  - rewrite E. apply Ascii.eqb_refl.
  - apply Ascii.eqb_neq. exact N.
Qed.

(** Folding the case of a character never gives NUL, NUL itself apart. *)
Lemma to_lower_nul (c : ascii) :
  (c =? "000")%char = false -> to_lower c <> "000"%char.
Proof.
  destruct c as [[] [] [] [] [] [] [] []]; intros E; try discriminate E;
    vm_compute; discriminate.
Qed.

(** Without wildcards and without NUL the pattern is the prefix test up to
    ASCII case, whatever the key holds. *)
Lemma like_wildcard_free (p k : string) :
  wildcard_free p = true ->
  nul_free p = true ->
  like (p ++ "%") k = String.prefix (lower p) (lower k).
Proof.
  unfold like. revert k; induction p as [|c p IH]; intros k W NF.
  - rewrite like_percent_alone. destruct k; reflexivity.
  - simpl in W. apply andb_true_iff in W. destruct W as [W Wp].
    apply andb_true_iff in W. destruct W as [W1 W2].
    apply negb_true_iff in W1. apply negb_true_iff in W2.
    simpl in NF. apply andb_true_iff in NF. destruct NF as [Z1 Zp].
    apply negb_true_iff in Z1.
    change (String c p ++ "%")%string with (String c (p ++ "%")%string).
    rewrite c_string_cons, Z1.
    rewrite like_literal by exact W1. rewrite W2.
    destruct k as [|d k]; [reflexivity|].
    rewrite c_string_cons. cbn [lower String.prefix].
    destruct (d =? "000")%char eqn:D.
    + apply Ascii.eqb_eq in D. subst d.
      destruct (ascii_dec (to_lower c) (to_lower "000")) as [E|N]; [|reflexivity].
      exfalso. exact (to_lower_nul c Z1 E).
    + rewrite to_lower_eqb, (IH k Wp Zp).
      destruct (ascii_dec (to_lower c) (to_lower d)); reflexivity.
Qed.

(** X9. For a prefix that holds neither [%] nor [_] nor NUL, and whose
    pattern SQLite accepts, [get_prefix] returns exactly the entries of the
    live rows whose key begins with the prefix when ASCII upper-case letters
    are read as lower-case in both. *)
Theorem get_prefix_wildcard_free (st : Store) (prefix : string) (e : KVEntry.t) :
  wildcard_free prefix = true ->
  nul_free prefix = true ->
  pattern_fits prefix = true ->
  (In e (get_prefix st prefix)
   <-> exists r, In r (kv_entries st) /\ Row.live r = true /\ Row.entry r = e
                 /\ String.prefix (lower prefix) (lower (Row.key r)) = true).
Proof.
  intros W NF _. rewrite get_prefix_In_iff.
  split; intros [r [H [L [E K]]]]; exists r; repeat split; try assumption.
  - rewrite <- like_wildcard_free; assumption.
  - rewrite like_wildcard_free; assumption.
Qed.

Lemma get_prefix_wildcard_free_witness :
  In (KVEntry.mk "cfg/x" "1" 1 1 1 None 100 100)
    (get_prefix (step init 100 (CPut "cfg/x" "1" None)) "CFG/")
  <-> exists r, In r (kv_entries (step init 100 (CPut "cfg/x" "1" None)))
                /\ Row.live r = true
                /\ Row.entry r = KVEntry.mk "cfg/x" "1" 1 1 1 None 100 100
                /\ String.prefix (lower "CFG/") (lower (Row.key r)) = true.
Proof.
  apply (get_prefix_wildcard_free (step init 100 (CPut "cfg/x" "1" None)) "CFG/");
    reflexivity.
Defined.

(** ** The history of a key *)

Lemma insert_by_mod_revision_desc_perm (r : Row.t) (l : list Row.t) :
  Permutation (insert_by_mod_revision_desc r l) (r :: l).
Proof.
  induction l as [|a l IH]; simpl; [apply Permutation_refl|].
  destruct (Row.mod_revision a <=? Row.mod_revision r); [apply Permutation_refl|].
  eapply perm_trans; [apply perm_skip, IH|apply perm_swap].
Qed.

Lemma order_by_mod_revision_desc_perm (l : list Row.t) :
  Permutation (order_by_mod_revision_desc l) l.
Proof.
  induction l as [|a l IH]; simpl; [constructor|].
  eapply perm_trans; [apply insert_by_mod_revision_desc_perm|apply perm_skip, IH].
Qed.

Lemma insert_by_mod_revision_desc_sorted (r : Row.t) (l : list Row.t) :
  Sorted (fun x y => Row.mod_revision y <= Row.mod_revision x) l ->
  Sorted (fun x y => Row.mod_revision y <= Row.mod_revision x)
    (insert_by_mod_revision_desc r l).
Proof.
  induction 1 as [|a l S IH H]; simpl; [repeat constructor|].
  destruct (Row.mod_revision a <=? Row.mod_revision r) eqn:E.
  - apply Z.leb_le in E. constructor; [constructor; assumption|constructor; exact E].
  - apply Z.leb_gt in E. constructor; [exact IH|].
    destruct l as [|b l]; simpl; [constructor; lia|].
    inversion H; subst.
    destruct (Row.mod_revision b <=? Row.mod_revision r); constructor; lia.
Qed.

Lemma order_by_mod_revision_desc_sorted (l : list Row.t) :
  Sorted (fun x y => Row.mod_revision y <= Row.mod_revision x)
    (order_by_mod_revision_desc l).
Proof.
  induction l as [|a l IH]; simpl; [constructor|].
  apply insert_by_mod_revision_desc_sorted, IH.
Qed.

Lemma newest_first_firstn (n : nat) (l : list Row.t) :
  Sorted (fun x y => Row.mod_revision y <= Row.mod_revision x) l ->
  Sorted (fun x y => Row.mod_revision y <= Row.mod_revision x) (firstn n l).
Proof.
  intros S. revert n. induction S as [|a l S IH H]; intros [|n]; simpl;
    try constructor; [apply IH|].
  destruct H; destruct n; simpl; constructor. assumption.
Qed.

Lemma newest_first_entries (l : list Row.t) :
  Sorted (fun x y => Row.mod_revision y <= Row.mod_revision x) l ->
  Sorted (fun a b => KVEntry.mod_revision b <= KVEntry.mod_revision a)
    (map Row.entry l).
Proof.
  induction 1 as [|a l S IH H]; simpl; constructor; [exact IH|].
  destruct H; simpl; constructor. assumption.
Qed.

(** X10. For a limit that SQLite can bind, [list_revision_history(key,
    limit)] returns entries of that key only, newest first (mod_revision
    never increases along the list), rows flagged as deleted included; with
    a negative limit it returns every stored row of the key, otherwise the
    first [limit] of them. *)
Theorem list_revision_history_newest_first (st : Store) (k : string) (limit : Z) :
  sqlite_int limit ->
  Forall (fun e => KVEntry.key e = k) (list_revision_history st k limit)
  /\ Sorted (fun a b => KVEntry.mod_revision b <= KVEntry.mod_revision a)
       (list_revision_history st k limit)
  /\ Permutation (list_revision_history st k (-1)) (map Row.entry (rows_of st k))
  /\ list_revision_history st k limit
     = (if limit <? 0 then list_revision_history st k (-1)
        else firstn (Z.to_nat limit) (list_revision_history st k (-1))).
Proof.
  intros _. unfold list_revision_history. fold (rows_of st k).
  split; [|split; [|split]].
  - apply Forall_forall. intros e H. apply in_map_iff in H.
    destruct H as [r [<- H]].
    apply sql_limit_In, order_by_mod_revision_desc_In, filter_In in H.
    destruct H as [_ H]. apply String.eqb_eq in H. exact H.
  - apply newest_first_entries. unfold sql_limit.
    destruct (limit <? 0);
      [|apply newest_first_firstn]; apply order_by_mod_revision_desc_sorted.
  - apply Permutation_map. unfold sql_limit. simpl.
    apply order_by_mod_revision_desc_perm.
  - unfold sql_limit. simpl. destruct (limit <? 0); [reflexivity|].
    symmetry. apply firstn_map.
Qed.

Lemma list_revision_history_newest_first_witness :
  sqlite_int 1
  /\ list_revision_history
       (step (step init 100 (CPut "a" "1" None)) 101 (CPut "a" "2" None)) "a" 1
     = [KVEntry.mk "a" "2" 2 2 2 None 101 101]
  /\ Forall (fun e => KVEntry.key e = "a")
       (list_revision_history
          (step (step init 100 (CPut "a" "1" None)) 101 (CPut "a" "2" None)) "a" 1)
  /\ Sorted (fun a b => KVEntry.mod_revision b <= KVEntry.mod_revision a)
       (list_revision_history
          (step (step init 100 (CPut "a" "1" None)) 101 (CPut "a" "2" None)) "a" 1).
Proof.
  assert (sqlite_int 1) as B by (unfold sqlite_int; lia).
  split; [exact B|]. split; [reflexivity|].
  pose proof (list_revision_history_newest_first
                (step (step init 100 (CPut "a" "1" None)) 101 (CPut "a" "2" None))
                "a" 1 B) as [F [S _]].
  split; [exact F|exact S].
Defined.

Lemma insert_desc_by_entries (a b : Row.t) (l1 l2 : list Row.t) :
  Row.entry a = Row.entry b ->
  map Row.entry l1 = map Row.entry l2 ->
  map Row.entry (insert_by_mod_revision_desc a l1)
  = map Row.entry (insert_by_mod_revision_desc b l2).
Proof.
  intros Eab. revert l2; induction l1 as [|x l1 IH]; intros [|y l2] E;
    simpl in E; try discriminate; simpl; [rewrite Eab; reflexivity|].
  inversion E as [[Exy El]]. unfold Row.mod_revision. rewrite Exy, Eab.
  destruct (KVEntry.mod_revision (Row.entry y) <=? KVEntry.mod_revision (Row.entry b));
    simpl; rewrite ?Eab, ?Exy, ?El; [reflexivity|].
  f_equal. apply IH. exact El.
Qed.

(** The history reads the entries only, not the deleted flags. *)
Lemma history_by_entries (kv1 kv2 : list Row.t) (k : string) :
  map Row.entry kv1 = map Row.entry kv2 ->
  map Row.entry (order_by_mod_revision_desc
                   (filter (fun r => (Row.key r =? k)%string) kv1))
  = map Row.entry (order_by_mod_revision_desc
                     (filter (fun r => (Row.key r =? k)%string) kv2)).
Proof.
  revert kv2; induction kv1 as [|a kv1 IH]; intros [|b kv2] E; simpl in E;
    try discriminate; [reflexivity|].
  inversion E as [[Eab El]]. simpl. unfold Row.key. rewrite Eab.
  destruct (KVEntry.key (Row.entry b) =? k)%string; simpl.
  - apply insert_desc_by_entries; [exact Eab|apply IH, El].
  - apply IH, El.
Qed.

(** X11. A delete takes nothing out of the history: whatever a delete
    does, of a key or of a range, returning or raising,
    [list_revision_history] of every key and limit is what it was before. *)
Theorem list_revision_history_survives_delete (st : Store) (now : timestamp)
  (k : string) (e : option string) (k' : string) (limit : Z) :
  list_revision_history (fst (delete st now k e)) k' limit
  = list_revision_history st k' limit.
Proof.
  destruct (delete_cases st now k e) as [_ [_ [_ [_ [E _]]]]].
  unfold list_revision_history, sql_limit.
  destruct (limit <? 0); [|rewrite <- !firstn_map; f_equal];
    apply history_by_entries, E.
Qed.

Lemma order_desc_snoc_newest (l : list Row.t) (r : Row.t) :
  Forall (fun a => Row.mod_revision a < Row.mod_revision r) l ->
  order_by_mod_revision_desc (l ++ [r]) = r :: order_by_mod_revision_desc l.
Proof.
  unfold order_by_mod_revision_desc.
  induction 1 as [|a l Ha F IH]; simpl; [reflexivity|].
  rewrite IH. simpl.
  replace (Row.mod_revision r <=? Row.mod_revision a) with false;
    [reflexivity|symmetry; apply Z.leb_gt; exact Ha].
Qed.

(** X12. In every reachable store a put returns, and the history of its key
    grows at the front by exactly the entry it wrote: the full history is
    the new entry followed by the old full history, and with a positive
    limit that SQLite can bind it is the new entry followed by the old
    history of limit - 1. *)
Theorem list_revision_history_after_put (st : Store) (now : timestamp)
  (k v : string) :
  reachable st ->
  exists st',
    put st now k v None = (st', Returned (revision st + 1))
    /\ list_revision_history st' k (-1)
       = KVEntry.mk k v (next_version (kv_entries st) k)
           (revision st + 1) (revision st + 1) None now now
         :: list_revision_history st k (-1)
    /\ forall limit, 0 < limit < 2 ^ 63 ->
         list_revision_history st' k limit
         = KVEntry.mk k v (next_version (kv_entries st) k)
             (revision st + 1) (revision st + 1) None now now
           :: list_revision_history st k (limit - 1).
Proof.
  intros R. apply reachable_Inv in R.
  exists (after_put st now k v None (leases st)).
  split; [apply put_returns_no_lease; exact R|].
  assert (order_by_mod_revision_desc
            (filter (fun r => (Row.key r =? k)%string)
               (kv_entries (after_put st now k v None (leases st))))
          = Row.mk (KVEntry.mk k v (next_version (kv_entries st) k)
                      (revision st + 1) (revision st + 1) None now now) 0
            :: order_by_mod_revision_desc
                 (filter (fun r => (Row.key r =? k)%string) (kv_entries st))) as E.
  { unfold after_put. simpl. rewrite filter_app. simpl.
    unfold Row.key at 2. simpl. rewrite String.eqb_refl.
    apply order_desc_snoc_newest. apply Forall_forall. intros r Hr.
    apply filter_In in Hr. destruct Hr as [Hr _].
    pose proof (inv_rows_bounded st R) as B.
    rewrite Forall_map, Forall_forall in B. specialize (B r Hr).
    unfold Row.mod_revision. simpl. lia. }
  unfold list_revision_history. rewrite E. split; [reflexivity|].
  intros limit L. unfold sql_limit.
  replace (limit <? 0) with false by (symmetry; apply Z.ltb_ge; lia).
  replace (limit - 1 <? 0) with false by (symmetry; apply Z.ltb_ge; lia).
  replace (Z.to_nat limit) with (S (Z.to_nat (limit - 1))) by lia.
  reflexivity.
Qed.

Lemma list_revision_history_after_put_witness :
  exists st',
    put init 100 "a" "1" None = (st', Returned (revision init + 1))
    /\ list_revision_history st' "a" (-1)
       = KVEntry.mk "a" "1" (next_version (kv_entries init) "a")
           (revision init + 1) (revision init + 1) None 100 100
         :: list_revision_history init "a" (-1)
    /\ forall limit, 0 < limit < 2 ^ 63 ->
         list_revision_history st' "a" limit
         = KVEntry.mk "a" "1" (next_version (kv_entries init) "a")
             (revision init + 1) (revision init + 1) None 100 100
           :: list_revision_history init "a" (limit - 1).
Proof.
  apply (list_revision_history_after_put init 100 "a" "1"). apply reachable_init.
Defined.

(** ** Counting keys *)

Lemma live_keys_readable (st : Store) (k : string) :
  In k (live_keys st) <-> get st k None <> None.
Proof.
  unfold live_keys, get. rewrite nodup_In, in_map_iff. split.
  - intros [r [E H]] C. apply filter_In in H. destruct H as [H L].
    destruct (latest (live_rows_of (kv_entries st) k)) eqn:La; [discriminate|].
    apply latest_nil_iff in La.
    assert (In r (live_rows_of (kv_entries st) k)) as I.
    { apply filter_In. split; [exact H|]. rewrite L, E, String.eqb_refl. reflexivity. }
    rewrite La in I. destruct I.
  - intros N. destruct (latest (live_rows_of (kv_entries st) k)) as [r|] eqn:La;
      [|exfalso; apply N; reflexivity].
    apply latest_In, filter_In in La. destruct La as [H P].
    apply andb_true_iff in P. destruct P as [E L]. apply String.eqb_eq in E.
    exists r. split; [exact E|]. apply filter_In. tauto.
Qed.

Lemma count_keys_by_enumeration (st : Store) (keys : list string) :
  NoDup keys ->
  (forall k, In k keys <-> get st k None <> None) ->
  _count_keys st = Z.of_nat (List.length keys).
Proof.
  intros N H. unfold _count_keys. fold (live_keys st). f_equal.
  apply Permutation_length, NoDup_Permutation;
    [apply NoDup_nodup|exact N|].
  intros k. rewrite live_keys_readable, H. tauto.
Qed.

(** X13. The key count of [get_cluster_info] is the number of keys that
    [get] finds: [_count_keys] counts each key with a live row once, those
    are the keys whose [get] is not absent, and any duplicate-free list of
    exactly these keys has the reported length. *)
Theorem key_count_counts_readable_keys (st : Store) (now : timestamp) :
  NoDup (live_keys st)
  /\ (forall k, In k (live_keys st) <-> get st k None <> None)
  /\ ClusterInfo.key_count (get_cluster_info st now)
     = Z.of_nat (List.length (live_keys st))
  /\ forall keys,
       NoDup keys ->
       (forall k, In k keys <-> get st k None <> None) ->
       ClusterInfo.key_count (get_cluster_info st now) = Z.of_nat (List.length keys).
Proof.
  split; [apply NoDup_nodup|]. split; [apply live_keys_readable|].
  split; [reflexivity|]. intros keys N H. simpl.
  apply count_keys_by_enumeration; assumption.
Qed.

Lemma key_count_counts_readable_keys_witness :
  ClusterInfo.key_count
    (get_cluster_info
       (step (step (step init 1 (CPut "a" "1" None)) 2 (CPut "a" "2" None)) 3
          (CPut "b" "3" None)) 4)
  = Z.of_nat (List.length ["a"; "b"]).
Proof.
  apply (key_count_counts_readable_keys
           (step (step (step init 1 (CPut "a" "1" None)) 2 (CPut "a" "2" None)) 3
              (CPut "b" "3" None)) 4).
  - exact (NoDup_nodup string_dec ["a"; "a"; "b"]).
  - exact (live_keys_readable
             (step (step (step init 1 (CPut "a" "1" None)) 2 (CPut "a" "2" None)) 3
                (CPut "b" "3" None))).
Defined.

Lemma count_keys_cons (st st' : Store) (k : string) :
  get st k None = None ->
  get st' k None <> None ->
  (forall x, x <> k -> get st' x None = get st x None) ->
  _count_keys st' = _count_keys st + 1.
Proof.
  intros A B F.
  rewrite (count_keys_by_enumeration st' (k :: live_keys st)).
  - unfold _count_keys. fold (live_keys st). simpl List.length. lia.
  - constructor; [|apply NoDup_nodup].
    intros H. apply live_keys_readable in H. auto.
  - intros x. simpl. destruct (string_dec x k) as [->|N].
    + split; [intros _; exact B|auto].
    + rewrite (F x N), <- live_keys_readable. split; [|tauto].
      intros [E|H]; [congruence|exact H].
Qed.

Lemma count_keys_same (st st' : Store) (k : string) :
  (get st k None = None <-> get st' k None = None) ->
  (forall x, x <> k -> get st' x None = get st x None) ->
  _count_keys st' = _count_keys st.
Proof.
  intros A F.
  rewrite (count_keys_by_enumeration st' (live_keys st)).
  - reflexivity.
  - apply NoDup_nodup.
  - intros x. rewrite live_keys_readable. destruct (string_dec x k) as [->|N].
    + tauto.
    + rewrite (F x N). tauto.
Qed.

(** X14. How the key count moves in a reachable store: a put of a key
    that has no live entry raises it by one and a put on a live key leaves
    it; a delete of a live key lowers it by one and a delete of a key that
    has no live entry leaves it. *)
Theorem key_count_after_write (st : Store) (now : timestamp) (k v : string) :
  reachable st ->
  match get st k None with
  | None =>
      _count_keys (fst (put st now k v None)) = _count_keys st + 1
      /\ _count_keys (fst (delete st now k None)) = _count_keys st
  | Some _ =>
      _count_keys (fst (put st now k v None)) = _count_keys st
      /\ _count_keys (fst (delete st now k None)) = _count_keys st - 1
  end.
Proof.
  intros R. apply reachable_Inv in R.
  rewrite put_returns_no_lease, delete_key_returns by auto. cbn [fst].
  pose proof (get_after_put st now k v None (leases st) R) as GP.
  pose proof (get_after_delete st now k None) as GD.
  assert (forall x, x <> k ->
            get (after_put st now k v None (leases st)) x None = get st x None) as FP
    by (intros x N; apply get_other_after_put; exact N).
  assert (forall x, x <> k -> get (after_delete st now k) x None = get st x None) as FD
    by (intros x N; apply get_other_after_delete; exact N).
  destruct (get st k None) as [e|] eqn:G; split.
  - apply (count_keys_same st _ k); [|exact FP].
    rewrite G, GP. split; intros H; discriminate H.
  - assert (_count_keys st = _count_keys (after_delete st now k) + 1) as E; [|lia].
    apply (count_keys_cons _ st k); [exact GD|congruence|].
    intros x N. symmetry. apply FD, N.
  - apply (count_keys_cons st _ k); [exact G|rewrite GP; discriminate|exact FP].
  - apply (count_keys_same st _ k); [|exact FD]. rewrite G, GD. tauto.
Qed.

Lemma key_count_after_write_witness :
  _count_keys (fst (put init 1 "a" "1" None)) = _count_keys init + 1
  /\ _count_keys (fst (delete init 1 "a" None)) = _count_keys init.
Proof.
  exact (key_count_after_write init 1 "a" "1" reachable_init).
Defined.

(** ** Opening a directory that holds a database *)

Lemma insert_revision_collides (revs : list RevRow.t) (r : RevRow.t) :
  In (RevRow.revision r) (map RevRow.revision revs) ->
  insert_revision revs r
  = Raised (IntegrityError "UNIQUE constraint failed: revisions.revision").
Proof.
  intros H. unfold insert_revision.
  replace (existsb _ revs) with true; [reflexivity|].
  symmetry. apply existsb_exists. apply in_map_iff in H.
  destruct H as [r' [E H]]. exists r'. split; [exact H|].
  apply Z.eqb_eq. exact E.
Qed.

(** X15. A store opened on a directory whose revision log still holds
    revision 1 (every run of the command line after the first write) reads
    as before, but its counter starts at 0 again: the first put, of any key,
    and the first delete raise IntegrityError, write nothing and leave the
    counter at 1. *)
Theorem writes_collide_after_restart (st : Store) :
  In 1 (map RevRow.revision (revisions st)) ->
  (forall k R, get (__init__ st) k R = get st k R)
  /\ (forall now k v l,
         exists msg,
           put (__init__ st) now k v l
           = (set_revision (__init__ st) 1, Raised (IntegrityError msg)))
  /\ (forall now k,
         delete (__init__ st) now k None
         = (set_revision (__init__ st) 1,
            Raised (IntegrityError "UNIQUE constraint failed: revisions.revision"))).
Proof.
  intros H. split; [reflexivity|]. split.
  - intros now k v l. unfold put. cbn [__init__ set_revision kv_entries revision
                                        revisions leases Z.add].
    destruct (insert_kv_cases (kv_entries st)
                (Row.mk (KVEntry.mk k v (next_version (kv_entries st) k) 1 1 l now now) 0))
      as [[e E]| E]; rewrite E.
    + unfold insert_kv in E. destruct (existsb _ (kv_entries st)); inversion E.
      eexists. reflexivity.
    + rewrite insert_revision_collides by exact H. eexists. reflexivity.
  - intros now k. unfold delete. cbn [__init__ set_revision kv_entries revision
                                       revisions leases Z.add delete_rows].
    rewrite insert_revision_collides by exact H. reflexivity.
Qed.

Lemma writes_collide_after_restart_witness :
  exists msg,
    put (__init__ (fst (put init 100 "a" "1" None))) 200 "b" "2" None
    = (set_revision (__init__ (fst (put init 100 "a" "1" None))) 1,
       Raised (IntegrityError msg)).
Proof.
  apply (writes_collide_after_restart (fst (put init 100 "a" "1" None))).
  left. reflexivity.
Defined.

(** ** Watches as a dictionary *)






(** ** Looking a lease up *)

Lemma find_none_filter_out (i : string) (ls : list Lease.t) :
  find (fun l => (Lease.id l =? i)%string) ls = None ->
  filter (fun l => negb (Lease.id l =? i)%string) ls = ls.
Proof.
  induction ls as [|a ls IH]; simpl; [reflexivity|].
  destruct (Lease.id a =? i)%string; [discriminate|].
  intros H. simpl. rewrite IH by exact H. reflexivity.
Qed.

Lemma find_after_filter_out (i : string) (ls : list Lease.t) :
  find (fun l => (Lease.id l =? i)%string)
    (filter (fun l => negb (Lease.id l =? i)%string) ls) = None.
Proof.
  induction ls as [|a ls IH]; simpl; [reflexivity|].
  destruct (Lease.id a =? i)%string eqn:E; simpl; [exact IH|].
  rewrite E. exact IH.
Qed.

Lemma revoke_lease_leases (st st' : Store) (now : timestamp) (i : string) :
  revoke_lease st now i = (st', Returned tt) ->
  exists st1,
    leases st'
    = filter (fun l => negb (Lease.id l =? i)%string) (leases st1)
    /\ st' = set_leases st1 (leases st').
Proof.
  unfold revoke_lease. destruct (find _ (leases st)) as [l|].
  - destruct (delete_keys st now (Lease.keys l)) as [st1 [[]|e]];
      intros H; inversion H; subst. exists st1. split; reflexivity.
  - intros H; inversion H; subst. exists st. split; reflexivity.
Qed.

(** X17. Leases by id.  For an id with no row in [leases], [keepalive]
    returns False and [revoke_lease] returns, and neither changes the store.
    For an id with a row, [keepalive] computes the deadline now + ttl_s: when
    that is a [datetime] it returns True and sets the deadline of that
    lease, leaving the key-value tables and the counter; when it is not
    (past [datetime.max], before [datetime.min], or a ttl_s no [timedelta]
    holds) it raises OverflowError and writes nothing.  Once [revoke_lease]
    has returned the id has no row, and [keepalive] of it returns False. *)
Theorem lease_by_id (st : Store) (now : timestamp) (i : string) :
  match find (fun l => (Lease.id l =? i)%string) (leases st) with
  | None =>
      keepalive st now i = (st, Returned false)
      /\ revoke_lease st now i = (st, Returned tt)
  | Some l =>
      if deadline_ok now (Lease.ttl_s l) then
        snd (keepalive st now i) = Returned true
        /\ find (fun l => (Lease.id l =? i)%string) (leases (fst (keepalive st now i)))
           = Some (Lease.set_expires_at l (now + Lease.ttl_s l))
        /\ (kv_entries (fst (keepalive st now i)), revisions (fst (keepalive st now i)),
            revision (fst (keepalive st now i)))
           = (kv_entries st, revisions st, revision st)
      else keepalive st now i = (st, Raised OverflowError)
  end
  /\ forall st' now',
       revoke_lease st now i = (st', Returned tt) ->
       find (fun l => (Lease.id l =? i)%string) (leases st') = None
       /\ keepalive st' now' i = (st', Returned false).
Proof.
  split.
  - unfold keepalive, revoke_lease.
    destruct (find _ (leases st)) as [l|] eqn:F; simpl.
    + destruct (deadline_ok now (Lease.ttl_s l)); simpl; [|reflexivity].
      split; [reflexivity|]. split; [|reflexivity].
      rewrite find_map_id, F
        by (intros x; destruct (Lease.id x =? i)%string; reflexivity).
      simpl. apply find_some in F. destruct F as [_ F]. rewrite F. reflexivity.
    + split; [reflexivity|]. rewrite find_none_filter_out by exact F.
      destruct st; reflexivity.
  - intros st' now' H. apply revoke_lease_leases in H.
    destruct H as [st1 [L E]].
    assert (find (fun l => (Lease.id l =? i)%string) (leases st') = None) as N
      by (rewrite L; apply find_after_filter_out).
    split; [exact N|]. unfold keepalive. rewrite N. reflexivity.
Qed.

(** A granted lease kept alive within the range of [datetime], and at an
    instant from which its ttl leads past [datetime.max]; then revoked. *)
Lemma lease_by_id_witness :
  (keepalive (fst (grant_lease init 1 "lease-00000001" 60)) 30 "lease-00000001"
   = (mkStore [] [Lease.mk "lease-00000001" 60 1 90 []] [] 0 0 [], Returned true)
   /\ keepalive (fst (grant_lease init 1 "lease-00000001" 60)) datetime_max
        "lease-00000001"
      = (fst (grant_lease init 1 "lease-00000001" 60), Raised OverflowError))
  /\ find (fun l => (Lease.id l =? "lease-00000001")%string)
       (leases (fst (revoke_lease (fst (grant_lease init 1 "lease-00000001" 60)) 2
                       "lease-00000001"))) = None
  /\ keepalive (fst (revoke_lease (fst (grant_lease init 1 "lease-00000001" 60)) 2
                       "lease-00000001")) 3 "lease-00000001"
     = (fst (revoke_lease (fst (grant_lease init 1 "lease-00000001" 60)) 2
               "lease-00000001"), Returned false).
Proof.
  split; [split; reflexivity|].
  apply (proj2 (lease_by_id (fst (grant_lease init 1 "lease-00000001" 60)) 2
                  "lease-00000001")).
  reflexivity.
Defined.

(** ** Revoking a lease *)

(** Behind the counter the deletes of a key list all return: one revision
    and one log record each, the listed keys absent afterwards, the other
    keys read as before. *)
Lemma delete_keys_returns (st : Store) (now : timestamp) (keys : list string) :
  Inv st ->
  exists st',
    delete_keys st now keys = (st', Returned tt)
    /\ Inv st'
    /\ revision st' = revision st + Z.of_nat (List.length keys)
    /\ leases st' = leases st
    /\ (forall k R, In k keys -> get st' k R = None)
    /\ (forall k R, ~ In k keys -> get st' k R = get st k R)
    /\ log_view (revisions st')
       = log_view (revisions st) ++ log_from (revision st + 1) (delete_ops keys).
Proof.
  revert st; induction keys as [|a keys IH]; intros st I.
  - exists st. split; [reflexivity|]. split; [exact I|].
    split; [simpl; lia|]. split; [reflexivity|].
    split; [intros k R []|]. split; [reflexivity|].
    simpl. rewrite app_nil_r. reflexivity.
  - cbn [delete_keys]. rewrite delete_key_returns by auto.
    destruct (IH (after_delete st now a) (Inv_after_delete st now a I))
      as [st' [D [I' [Rv [L [Gone [Kept Log]]]]]]].
    exists st'. split; [exact D|]. split; [exact I'|]. split; [|split; [|split; [|split]]].
    + rewrite Rv. cbn [after_delete revision List.length]. lia.
    + rewrite L. reflexivity.
    + intros k R [<-|H]; [|apply Gone, H].
      destruct (in_dec string_dec a keys) as [H|H]; [apply Gone, H|].
      rewrite Kept by exact H. apply get_after_delete.
    + intros k R N. rewrite Kept by (intros H; apply N; right; exact H).
      apply get_other_after_delete. intros E. apply N. left. auto.
    + rewrite Log. cbn [after_delete revision revisions].
      rewrite log_view_snoc, <- app_assoc. reflexivity.
Qed.

(** X18. [revoke_lease] on a lease that lists keys, in a store whose rows
    and log are behind the counter: it returns; every listed key is deleted
    by a delete of its own, in list order, each with the next revision and
    its own log record; the listed keys are absent afterwards, at the
    latest and at every revision that SQLite can bind, every other key reads
    as before, and the lease row is gone. *)
Theorem revoke_lease_deletes_its_keys (st : Store) (now : timestamp) (i : string)
  (l : Lease.t) :
  Inv st ->
  find (fun x => (Lease.id x =? i)%string) (leases st) = Some l ->
  exists st',
    revoke_lease st now i = (st', Returned tt)
    /\ revision st' = revision st + Z.of_nat (List.length (Lease.keys l))
    /\ log_view (revisions st')
       = log_view (revisions st)
         ++ log_from (revision st + 1) (delete_ops (Lease.keys l))
    /\ (forall k R, bindable R -> In k (Lease.keys l) -> get st' k R = None)
    /\ (forall k R, ~ In k (Lease.keys l) -> get st' k R = get st k R)
    /\ find (fun x => (Lease.id x =? i)%string) (leases st') = None.
Proof.
  intros I F. unfold revoke_lease. rewrite F.
  destruct (delete_keys_returns st now (Lease.keys l) I)
    as [st1 [D [_ [Rv [L [Gone [Kept Log]]]]]]].
  rewrite D. eexists. split; [reflexivity|]. simpl.
  repeat split; try assumption; [|apply find_after_filter_out].
  intros k R _ H. apply Gone, H.
Qed.

Lemma revoke_lease_deletes_its_keys_witness :
  exists st',
    revoke_lease
      (mkStore [Row.mk (KVEntry.mk "k" "v" 1 1 1 (Some "lease-1") 10 10) 0]
         [Lease.mk "lease-1" 60 5 65 ["k"]]
         [RevRow.mk 1 10 "put" "k" (Some (Version 1))] 1 0 []) 70 "lease-1"
    = (st', Returned tt)
    /\ revision st' = 1 + Z.of_nat (List.length ["k"])
    /\ log_view (revisions st')
       = [(1, "put", "k")] ++ log_from (1 + 1) (delete_ops ["k"])
    /\ (forall k R, bindable R -> In k ["k"] -> get st' k R = None)
    /\ (forall k R, ~ In k ["k"] ->
          get st' k R
          = get (mkStore [Row.mk (KVEntry.mk "k" "v" 1 1 1 (Some "lease-1") 10 10) 0]
                   [Lease.mk "lease-1" 60 5 65 ["k"]]
                   [RevRow.mk 1 10 "put" "k" (Some (Version 1))] 1 0 []) k R)
    /\ find (fun x => (Lease.id x =? "lease-1")%string) (leases st') = None.
Proof.
  apply (revoke_lease_deletes_its_keys
           (mkStore [Row.mk (KVEntry.mk "k" "v" 1 1 1 (Some "lease-1") 10 10) 0]
              [Lease.mk "lease-1" 60 5 65 ["k"]]
              [RevRow.mk 1 10 "put" "k" (Some (Version 1))] 1 0 []) 70 "lease-1"
           (Lease.mk "lease-1" 60 5 65 ["k"])).
  - constructor; simpl; repeat constructor; simpl; try lia; tauto.
  - reflexivity.
Defined.

(** ** Sweeping expired leases *)

Lemma filter_twice (A : Type) (p q : A -> bool) (l : list A) :
  filter q (filter p l) = filter (fun x => p x && q x) l.
Proof.
  induction l as [|a l IH]; simpl; [reflexivity|].
  destruct (p a); simpl; [destruct (q a)|]; rewrite IH; reflexivity.
Qed.



(** ** Leases and the keys of a put *)

(** The binding inside [put] never changes the lease table: it returns
    without an UPDATE or raises. *)
Lemma bind_lease_same (ls ls' : list Lease.t) (lease_id : option string)
  (key : string) :
  bind_lease ls lease_id key = Returned ls' -> ls' = ls.
Proof.
  unfold bind_lease, _add_key_to_lease. destruct lease_id as [i|];
    [|intros H; inversion H; reflexivity].
  destruct (truthy (Some i)); [|intros H; inversion H; reflexivity].
  destruct (find _ ls) as [l|]; [|intros H; inversion H; reflexivity].
  destruct (existsb _ (Lease.keys l)); intros H; inversion H; reflexivity.
Qed.

Lemma put_leases (st : Store) (now : timestamp) (k v : string) (l : option string) :
  leases (fst (put st now k v l)) = leases st.
Proof.
  destruct (put_cases st now k v l) as [[e ->]|[ls' [B ->]]]; simpl;
    [reflexivity|]. apply bind_lease_same in B. exact B.
Qed.

Lemma delete_leases (st : Store) (now : timestamp) (k : string) (e : option string) :
  leases (fst (delete st now k e)) = leases st.
Proof. destruct (delete_cases st now k e) as [_ [_ [_ [L _]]]]. exact L. Qed.

Lemma filter_keeps_lease_ids (p : Lease.t -> bool) (ls : list Lease.t) :
  NoDup (map Lease.id ls) -> NoDup (map Lease.id (filter p ls)).
Proof.
  induction ls as [|a ls IH]; simpl; intros N; [constructor|].
  apply NoDup_cons_iff in N. destruct N as [Fresh N].
  destruct (p a); simpl; [|exact (IH N)].
  apply NoDup_cons; [|exact (IH N)].
  intros Hin. apply Fresh. apply in_map_iff in Hin.
  destruct Hin as [y [Hy Hin]]. apply filter_In in Hin.
  apply in_map_iff. exists y. tauto.
Qed.

(** Every call keeps the lease table well formed: key lists empty, ids
    distinct. *)
Lemma step_keeps_leases (st : Store) (now : timestamp) (c : call) :
  Forall (fun l => Lease.keys l = []) (leases st)
  /\ NoDup (map Lease.id (leases st)) ->
  Forall (fun l => Lease.keys l = []) (leases (step st now c))
  /\ NoDup (map Lease.id (leases (step st now c))).
Proof.
  pose (Rel := fun a b : Store => leases b = leases a).
  assert (forall a, Rel a a) as Rr by reflexivity.
  assert (forall a b c, Rel a b -> Rel b c -> Rel a c) as Rt
    by (unfold Rel; intros a b c0 H1 H2; congruence).
  assert (forall (ls : list Lease.t) p,
            Forall (fun l => Lease.keys l = []) ls /\ NoDup (map Lease.id ls) ->
            Forall (fun l => Lease.keys l = []) (filter p ls)
            /\ NoDup (map Lease.id (filter p ls))) as Fil.
  { intros ls p [U N]. split; [|apply filter_keeps_lease_ids, N].
    apply Forall_forall. intros x Hx. apply filter_In in Hx.
    rewrite Forall_forall in U. apply U. tauto. }
  assert (forall s i,
            Forall (fun l => Lease.keys l = []) (leases s)
            /\ NoDup (map Lease.id (leases s)) ->
            Forall (fun l => Lease.keys l = []) (leases (fst (revoke_lease s now i)))
            /\ NoDup (map Lease.id (leases (fst (revoke_lease s now i))))) as Rev.
  { intros s i U. unfold revoke_lease. destruct (find _ (leases s)) as [l|].
    - pose proof (Rel_delete_keys Rel Rr Rt delete_leases s now (Lease.keys l)) as D.
      unfold Rel in D.
      destruct (delete_keys s now (Lease.keys l)) as [s1 [[]|e]]; simpl in *;
        rewrite D; [apply Fil|]; exact U.
    - simpl. apply Fil, U. }
  intros U. destruct c; simpl.
  - rewrite put_leases. exact U.
  - rewrite delete_leases. exact U.
  - rewrite (Rel_txn Rel Rr Rt put_leases delete_leases). exact U.
  - destruct (compact_cases st revision_) as [[_ ->]|[_ ->]]; exact U.
  - unfold grant_lease. destruct (negb _); [exact U|].
    destruct (existsb _ (leases st)) eqn:E; simpl; [exact U|].
    destruct U as [U N]. split.
    + apply Forall_app. split; [exact U|]. constructor; [reflexivity|constructor].
    + rewrite map_app. apply NoDup_snoc; [exact N|]. simpl. intros Hin.
      apply in_map_iff in Hin. destruct Hin as [x [Hx Hin]].
      assert (existsb (fun l => (Lease.id l =? lease_id)%string) (leases st) = true)
        as C; [|congruence].
      apply existsb_exists. exists x. split; [exact Hin|].
      apply String.eqb_eq. exact Hx.
  - apply Rev, U.
  - unfold keepalive. destruct (find _ (leases st)) as [l|]; simpl; [|exact U].
    destruct (negb _); simpl; [exact U|].
    destruct U as [U N]. split.
    + apply Forall_forall. intros x Hx. apply in_map_iff in Hx.
      destruct Hx as [y [<- Hy]]. rewrite Forall_forall in U.
      destruct (Lease.id y =? lease_id)%string; simpl; apply U, Hy.
    + rewrite map_map.
      rewrite (map_ext _ Lease.id); [exact N|].
      intros a. destruct (Lease.id a =? lease_id)%string; reflexivity.
  - unfold sweep_expired_leases.
    generalize (map Lease.id (filter (fun l => Lease.expires_at l <? now) (leases st))).
    intros ids. revert st U. induction ids as [|i ids IH]; intros st U; simpl;
      [exact U|].
    pose proof (Rev st i U) as U1.
    destruct (revoke_lease st now i) as [s1 [[]|e]]; simpl in *; [|exact U1].
    apply IH, U1.
  - exact U.
  - exact U.
  - destruct (poll_changes_cases st watch_id) as [-> | ->]; exact U.
Qed.

Lemma reachable_leases (st : Store) :
  reachable st ->
  Forall (fun l => Lease.keys l = []) (leases st)
  /\ NoDup (map Lease.id (leases st)).
Proof.
  induction 1 as [|st now c _ IH]; [|apply step_keeps_leases, IH].
  split; constructor.
Qed.

Lemma reachable_unbound (st : Store) :
  reachable st -> Forall (fun l => Lease.keys l = []) (leases st).
Proof. intros R. apply reachable_leases, R. Qed.

(** X20. No key is ever bound to a lease.  In every reachable store every
    lease has an empty key list, and a put that names an existing lease
    raises "database is locked" (the UPDATE of [_add_key_to_lease] comes
    from a second connection while the INSERTs of the put are uncommitted),
    stores nothing and moves the counter; so revoking or sweeping a lease
    deletes no key. *)
Theorem leases_bind_no_keys (st : Store) :
  reachable st ->
  Forall (fun l => Lease.keys l = []) (leases st)
  /\ (forall now k v i l,
         i <> "" ->
         find (fun x => (Lease.id x =? i)%string) (leases st) = Some l ->
         put st now k v (Some i)
         = (set_revision st (revision st + 1),
            Raised (OperationalError "database is locked")))
  /\ (forall now i, exists st',
         revoke_lease st now i = (st', Returned tt)
         /\ revision st' = revision st
         /\ kv_entries st' = kv_entries st
         /\ revisions st' = revisions st).
Proof.
  intros R. pose proof (reachable_unbound st R) as U.
  apply reachable_Inv in R. split; [exact U|]. split.
  - intros now k v i l N F. unfold put. cbn [set_revision kv_entries revision
                                              revisions leases].
    rewrite insert_kv_fresh.
    + rewrite insert_revision_fresh.
      * unfold bind_lease, _add_key_to_lease.
        replace (truthy (Some i)) with true
          by (symmetry; apply negb_true_iff, String.eqb_neq; exact N).
        rewrite F. apply find_some in F. destruct F as [F _].
        rewrite Forall_forall in U. rewrite (U l F). reflexivity.
      * eapply Forall_impl; [|exact (inv_log_bounded st R)]. simpl; intros; lia.
    + eapply Forall_impl; [|exact (inv_rows_bounded st R)].
      unfold Row.mod_revision; simpl; intros; lia.
  - intros now i. unfold revoke_lease.
    destruct (find _ (leases st)) as [l|] eqn:F.
    + apply find_some in F. destruct F as [F _].
      rewrite Forall_forall in U. rewrite (U l F). simpl.
      eexists. repeat split.
    + eexists. repeat split.
Qed.

Lemma leases_bind_no_keys_witness :
  put (step init 1 (CGrantLease "lease-00000001" 60)) 2 "k" "v" (Some "lease-00000001")
  = (set_revision (step init 1 (CGrantLease "lease-00000001" 60))
       (revision (step init 1 (CGrantLease "lease-00000001" 60)) + 1),
     Raised (OperationalError "database is locked")).
Proof.
  apply (proj1 (proj2 (leases_bind_no_keys
                         (step init 1 (CGrantLease "lease-00000001" 60))
                         (reachable_step init 1 _ reachable_init)))
           2 "k" "v" "lease-00000001" (Lease.mk "lease-00000001" 60 1 61 []));
    [discriminate|reflexivity].
Defined.

(** ** Sweeping expired leases *)

Lemma lease_by_unique_id (ls : list Lease.t) (a b : Lease.t) :
  NoDup (map Lease.id ls) -> In a ls -> In b ls -> Lease.id a = Lease.id b -> a = b.
Proof.
  induction ls as [|x ls IH]; simpl; intros N Ha Hb E; [destruct Ha|].
  apply NoDup_cons_iff in N. destruct N as [Fresh N].
  destruct Ha as [<-|Ha], Hb as [<-|Hb]; auto.
  - exfalso. apply Fresh. rewrite E. apply in_map, Hb.
  - exfalso. apply Fresh. rewrite <- E. apply in_map, Ha.
Qed.

Lemma revoke_all_unbound (st : Store) (now : timestamp) (ids : list string) :
  Forall (fun l => Lease.keys l = []) (leases st) ->
  exists st',
    revoke_all st now ids = (st', Returned tt)
    /\ (kv_entries st', revisions st', revision st')
       = (kv_entries st, revisions st, revision st)
    /\ leases st'
       = filter (fun l => negb (existsb (String.eqb (Lease.id l)) ids)) (leases st).
Proof.
  revert st; induction ids as [|i ids IH]; intros st U; simpl.
  - exists st. split; [reflexivity|]. split; [reflexivity|]. symmetry. clear U.
    induction (leases st) as [|a ls IHl]; simpl; [|rewrite IHl]; reflexivity.
  - assert (revoke_lease st now i
            = (set_leases st (filter (fun l => negb (Lease.id l =? i)%string)
                                (leases st)), Returned tt)) as R.
    { unfold revoke_lease. destruct (find _ (leases st)) as [l|] eqn:F;
        [|reflexivity].
      apply find_some in F. destruct F as [F _].
      rewrite Forall_forall in U. rewrite (U l F). reflexivity. }
    rewrite R.
    destruct (IH (set_leases st (filter (fun l => negb (Lease.id l =? i)%string)
                                   (leases st)))) as [st' [RA [T L]]].
    { simpl. apply Forall_forall. intros x Hx. apply filter_In in Hx.
      rewrite Forall_forall in U. apply U. tauto. }
    exists st'. split; [exact RA|]. split; [exact T|].
    rewrite L. simpl. rewrite filter_twice. apply filter_ext. intros a.
    rewrite negb_orb. reflexivity.
Qed.

(** X19. A turn of the lease sweeper in a reachable store returns and
    leaves exactly the leases whose deadline is not before [now]; it writes
    nothing to the key-value table or the revision log and takes no
    revision, and the number of active leases that [get_cluster_info]
    reports for that instant is the same before and after. *)
Theorem sweep_removes_expired (st : Store) (now : timestamp) :
  reachable st ->
  exists st',
    sweep_expired_leases st now = (st', Returned tt)
    /\ leases st' = filter (fun l => now <=? Lease.expires_at l) (leases st)
    /\ (kv_entries st', revisions st', revision st')
       = (kv_entries st, revisions st, revision st)
    /\ ClusterInfo.lease_count (get_cluster_info st' now)
       = ClusterInfo.lease_count (get_cluster_info st now).
Proof.
  intros R. destruct (reachable_leases st R) as [U N].
  unfold sweep_expired_leases.
  destruct (revoke_all_unbound st now
              (map Lease.id (filter (fun l => Lease.expires_at l <? now) (leases st))) U)
    as [st' [RA [T L]]].
  exists st'. split; [exact RA|].
  assert (leases st' = filter (fun l => now <=? Lease.expires_at l) (leases st)) as L'.
  { rewrite L. apply filter_ext_in. intros l Hl.
    destruct (now <=? Lease.expires_at l) eqn:X.
    - apply Z.leb_le in X. apply negb_true_iff, not_true_is_false. intros C.
      apply existsb_exists in C. destruct C as [x [Hx E]].
      apply in_map_iff in Hx. destruct Hx as [l' [<- Hl']].
      apply filter_In in Hl'. destruct Hl' as [Hl' X'].
      apply Z.ltb_lt in X'. apply String.eqb_eq in E.
      rewrite (lease_by_unique_id _ l l' N Hl Hl' E) in X. lia.
    - apply Z.leb_gt in X. apply negb_false_iff, existsb_exists.
      exists (Lease.id l). split; [|apply String.eqb_refl].
      apply in_map, filter_In. split; [exact Hl|]. apply Z.ltb_lt. exact X. }
  split; [exact L'|]. split; [exact T|].
  simpl. unfold _count_leases. rewrite L', filter_twice. do 2 f_equal.
  apply filter_ext. intros l.
  destruct (now <? Lease.expires_at l) eqn:X; [|apply andb_false_r].
  apply Z.ltb_lt in X. rewrite andb_true_r. apply Z.leb_le. lia.
Qed.

Lemma sweep_removes_expired_witness :
  exists st',
    sweep_expired_leases
      (step (step init 1 (CGrantLease "lease-00000001" 60)) 2
         (CGrantLease "lease-00000002" 600)) 100
    = (st', Returned tt)
    /\ leases st'
       = filter (fun l => 100 <=? Lease.expires_at l)
           (leases (step (step init 1 (CGrantLease "lease-00000001" 60)) 2
                      (CGrantLease "lease-00000002" 600)))
    /\ (kv_entries st', revisions st', revision st')
       = (kv_entries (step (step init 1 (CGrantLease "lease-00000001" 60)) 2
                        (CGrantLease "lease-00000002" 600)),
          revisions (step (step init 1 (CGrantLease "lease-00000001" 60)) 2
                       (CGrantLease "lease-00000002" 600)),
          revision (step (step init 1 (CGrantLease "lease-00000001" 60)) 2
                      (CGrantLease "lease-00000002" 600)))
    /\ ClusterInfo.lease_count (get_cluster_info st' 100)
       = ClusterInfo.lease_count
           (get_cluster_info
              (step (step init 1 (CGrantLease "lease-00000001" 60)) 2
                 (CGrantLease "lease-00000002" 600)) 100).
Proof.
  apply (sweep_removes_expired
           (step (step init 1 (CGrantLease "lease-00000001" 60)) 2
              (CGrantLease "lease-00000002" 600)) 100).
  apply reachable_step, reachable_step, reachable_init.
Defined.

(** ** The revision log against the entries *)

Lemma delete_rows_appends (kv : list Row.t) (revs : list RevRow.t) (rev : Z)
  (now : timestamp) (rows : list string) (kv' : list Row.t) (revs' : list RevRow.t) :
  delete_rows kv revs rev now rows = Returned (kv', revs') ->
  exists added,
    revs' = revs ++ added
    /\ Forall (fun r => RevRow.operation r = "delete" /\ RevRow.details_ r = None)
         added.
Proof.
  revert kv revs; induction rows as [|k rest IH]; intros kv revs; simpl.
  - intros H; inversion H; subst. exists []. rewrite app_nil_r.
    split; [reflexivity|constructor].
  - destruct (insert_revision_cases revs (RevRow.mk rev now "delete" k None))
      as [[e ->]|[-> _]]; [discriminate|].
    intros H. apply IH in H. destruct H as [added [-> F]].
    exists (RevRow.mk rev now "delete" k None :: added).
    rewrite <- app_assoc. split; [reflexivity|].
    constructor; [split; reflexivity|exact F].
Qed.

Lemma Logged_put (st : Store) (now : timestamp) (k v : string) (l : option string) :
  Logged st -> Logged (fst (put st now k v l)).
Proof.
  intros [E Rc].
  destruct (put_cases st now k v l) as [[e ->]|[ls' [_ ->]]]; simpl;
    [constructor; assumption|].
  constructor; simpl.
  - intros e He C. rewrite map_app in He. apply in_or_app.
    apply in_app_or in He. destruct He as [He|[<-|[]]]; [left; auto|].
    right. left. reflexivity.
  - intros r Hr. apply in_app_or in Hr. destruct Hr as [Hr|[<-|[]]].
    + destruct (Rc r Hr) as [[e [He Er]]|D]; [|right; exact D].
      left. exists e. split; [|exact Er]. rewrite map_app. apply in_or_app. auto.
    + left. eexists. split; [rewrite map_app; apply in_or_app; right; left;
                             reflexivity|reflexivity].
Qed.

Lemma Logged_delete (st : Store) (now : timestamp) (k : string) (e : option string) :
  Logged st -> Logged (fst (delete st now k e)).
Proof.
  intros [E Rc]. unfold delete.
  destruct (delete_rows _ _ _ _ _) as [[kv' revs']|x] eqn:D; simpl;
    [|constructor; assumption].
  destruct (delete_rows_cases (kv_entries st) (revisions st) (revision st + 1) now
              (match e with
               | Some e0 => if truthy e then range_keys (kv_entries st) k e0 else [k]
               | None => [k]
               end)) as [[x X]|[kv2 [revs2 [X [En _]]]]];
    simpl in D; rewrite X in D; inversion D; subst; clear D.
  apply delete_rows_appends in X. destruct X as [added [-> F]].
  constructor; simpl.
  - intros e0 He C. rewrite En in He. apply in_or_app. left. auto.
  - intros r Hr. apply in_app_or in Hr. destruct Hr as [Hr|Hr].
    + destruct (Rc r Hr) as [[e0 [He Er]]|Dl]; [|right; exact Dl].
      left. exists e0. rewrite En. auto.
    + right. rewrite Forall_forall in F. apply F, Hr.
Qed.

Lemma reachable_Logged (st : Store) : reachable st -> Logged st.
Proof.
  apply reachable_tables.
  - constructor; simpl; intros ? [].
  - exact Logged_put.
  - exact Logged_delete.
  - intros s r Lg. destruct (compact_cases s r) as [[_ ->]|[_ ->]]; [|exact Lg].
    destruct Lg as [E Rc]. constructor; simpl.
    + intros e He C. apply filter_In. split; [apply E; [exact He|lia]|].
      simpl. apply negb_true_iff, Z.leb_gt. lia.
    + intros x Hx. apply filter_In in Hx. apply Rc. tauto.
  - intros s ls [E Rc]. constructor; assumption.
  - intros s ws [E Rc]. constructor; assumption.
Qed.

(** X21. The revision log against the entries, in every reachable store:
    every stored entry whose mod_revision is after the compaction mark has
    its "put" record in the log, at that revision, with its key, its
    timestamp and its version as details; and every record of the log is
    either such a "put" record of a stored entry or a "delete" record
    without details. *)
Theorem log_matches_entries (st : Store) :
  reachable st ->
  (forall row, In row (kv_entries st) ->
               compacted_rev st < Row.mod_revision row ->
               In (RevRow.mk (Row.mod_revision row) (KVEntry.modified_at (Row.entry row))
                     "put" (Row.key row) (Some (Version (Row.version row))))
                 (revisions st))
  /\ (forall r, In r (revisions st) ->
        (exists row, In row (kv_entries st)
                     /\ r = RevRow.mk (Row.mod_revision row)
                              (KVEntry.modified_at (Row.entry row)) "put"
                              (Row.key row) (Some (Version (Row.version row))))
        \/ (RevRow.operation r = "delete" /\ RevRow.details_ r = None)).
Proof.
  intros R. destruct (reachable_Logged st R) as [E Rc]. split.
  - intros row H C. apply (E (Row.entry row)); [apply in_map, H|exact C].
  - intros r H. destruct (Rc r H) as [[e [He Er]]|D]; [|right; exact D].
    left. apply in_map_iff in He. destruct He as [row [<- Hrow]].
    exists row. split; [exact Hrow|exact Er].
Qed.

Lemma log_matches_entries_witness :
  In (RevRow.mk 2 101 "put" "a" (Some (Version 2)))
    (revisions (step (step (step init 100 (CPut "a" "1" None)) 101 (CPut "a" "2" None))
                  102 (CCompact 1))).
Proof.
  apply (proj1 (log_matches_entries
                  (step (step (step init 100 (CPut "a" "1" None)) 101
                           (CPut "a" "2" None)) 102 (CCompact 1))
                  (reachable_step _ 102 _
                     (reachable_step _ 101 _ (reachable_step _ 100 _ reachable_init))))
           (Row.mk (KVEntry.mk "a" "2" 2 2 2 None 101 101) 0)).
  - right. left. reflexivity.
  - reflexivity.
Defined.
